(** * API-key replacement gate of the settings page

    Shallow embedding of [src/app/(home)/settings/page.tsx]: the three
    string utilities [maskKey], [firstDiff] and [levenshtein], the values
    the component derives from its state on every render ([matches],
    [distanceFromCurrent], [suspiciousSmallEdit], [diff], [canSave]) and
    the handlers that change that state ([onOpenChange], [handleSave] and
    the inline setters of the dialog). *)

From Stdlib Require Import ZArith Lia String Ascii.
From stdpp Require Import base option list.

Local Open Scope nat_scope.

(** ** Strings

    A JavaScript string is a sequence of UTF-16 code units; [s.length],
    [s[i]] and [s.slice] all count code units. *)

Abbreviation code_unit := N.
Abbreviation jsstring := (list code_unit).

(** Literals of the source file that only use ASCII are written as Rocq
    strings and converted, one code unit per character. *)
Fixpoint js (s : string) : jsstring :=
  match s with
  | EmptyString => []
  | String c s' => N_of_ascii c :: js s'
  end.

(** [s[i]]: the code unit at [i], or [undefined] ([None]) out of range. *)
Definition char_at (s : jsstring) (i : nat) : option code_unit := s !! i.

(** [a !== b] on the results of two index expressions. *)
Definition strict_ne (x y : option code_unit) : bool := bool_decide (x ≠ y).

(** [a === b] on the results of two index expressions. *)
Definition strict_eq (x y : option code_unit) : bool := bool_decide (x = y).

(** Relative index of [String.prototype.slice]: a negative argument counts
    from the end, and the result is clamped to [0 .. len]. *)
Definition relative_index (len : nat) (k : Z) : nat :=
  if (k <? 0)%Z then Z.to_nat (Z.max (Z.of_nat len + k) 0)
  else Z.to_nat (Z.min k (Z.of_nat len)).

(** [s.slice(start, end)]; [end_ = None] is the one-argument call. *)
Definition slice (s : jsstring) (start : Z) (end_ : option Z) : jsstring :=
  let len := length s in
  let from := relative_index len start in
  let to := match end_ with
            | None => len
            | Some e => relative_index len e
            end in
  take (to - from) (drop from s).

(** Truthiness of a [string | null | undefined] value: [null],
    [undefined] and the empty string are falsy. *)
Definition truthy (key : option jsstring) : bool :=
  match key with
  | None => false
  | Some [] => false
  | Some (_ :: _) => true
  end.

(** ** maskKey *)

(** The em dash returned for a missing key (U+2014). *)
Definition placeholder : jsstring := [8212%N].

(** The template head [sk-…]: "s", "k", "-" and U+2026. *)
Definition prefix_marker : jsstring := js "sk-" ++ [8230%N].

(** [function maskKey(key?: string | null, suffix = 4)]; [suffix = None]
    is a call that leaves the second argument out, as the component's only
    call does.  A suffix argument is an integer. *)
Definition maskKey (key : option jsstring) (suffix : option Z) : jsstring :=
  let suffix := default 4%Z suffix in
  match key with
  | Some ((_ :: _) as key) =>
      let vis :=
        slice key (- Z.max 0 (Z.min suffix (Z.of_nat (length key)))) None in
      prefix_marker ++ vis
  | _ => placeholder
  end.

(** ** firstDiff *)

Record Diff := mkDiff {
  diff_index : nat;
  diff_left : jsstring;
  diff_right : jsstring
}.

(** The [for (let i = 0; i < max; i++)] loop of [firstDiff], started at
    [i] with [todo = max - i] iterations left. *)
Fixpoint firstDiff_loop (a b : jsstring) (max i todo : nat) : option Diff :=
  match todo with
  | 0 => None
  | S todo' =>
      if strict_ne (char_at a i) (char_at b i) then
        let start := Z.max 0 (Z.of_nat i - 3) in
        let end_ := Z.min (Z.of_nat max) (Z.of_nat i + 4) in
        Some {| diff_index := i;
                diff_left := slice a start (Some end_);
                diff_right := slice b start (Some end_) |}
      else firstDiff_loop a b max (S i) todo'
  end.

Definition firstDiff (a b : jsstring) : option Diff :=
  let max := Nat.max (length a) (length b) in
  firstDiff_loop a b max 0 max.

(** ** levenshtein *)

(** The table [dp]: an array of rows of numbers.  All its entries are
    lengths and sums of lengths, so they are natural numbers. *)
Abbreviation table := (list (list nat)).

(** [Array.from({ length: rows }, () => new Array(cols).fill(0))]: the
    callback makes a new row for every index, so no two rows are the same
    array and a write to one row leaves the others alone. *)
Definition new_table (rows cols : nat) : table :=
  replicate rows (replicate cols 0).

(** Reading [dp[i][j]] and writing [dp[i][j] = v].  An access outside the
    table makes a JavaScript program throw (no row [i]), read [undefined]
    or grow the row; the model follows none of these and answers [None]
    instead.  [levenshtein_total] shows that [levenshtein] never gets
    there. *)
Definition get (dp : table) (i j : nat) : option nat :=
  row ← dp !! i; row !! j.

Definition set (dp : table) (i j v : nat) : option table :=
  row ← dp !! i;
  if decide (j < length row) then Some (<[i := <[j := v]> row]> dp)
  else None.

(** A counting loop [for (let i = start; ...; i++) body] with [todo]
    iterations left, threading the loop state [s] through the body. *)
Fixpoint for_loop {St : Type} (body : nat → St → option St)
    (i todo : nat) (s : St) : option St :=
  match todo with
  | 0 => Some s
  | S todo' => s' ← body i s; for_loop body (S i) todo' s'
  end.

(** [Math.min(x, y, z)] *)
Definition min3 (x y z : nat) : nat := Nat.min (Nat.min x y) z.

(** [a[i - 1] === b[j - 1] ? 0 : 1] *)
Definition subst_cost (a b : jsstring) (i j : nat) : nat :=
  if strict_eq (char_at a (i - 1)) (char_at b (j - 1)) then 0 else 1.

(** The body of the inner loop: one cell of the table. *)
Definition fill_cell (a b : jsstring) (i j : nat) (dp : table)
  : option table :=
  let cost := subst_cost a b i j in
  deletion ← get dp (i - 1) j;
  insertion ← get dp i (j - 1);
  substitution ← get dp (i - 1) (j - 1);
  set dp i j (min3 (deletion + 1) (insertion + 1) (substitution + cost)).

(** The body of the outer loop: one row of the table, [j] from 1 to [n]. *)
Definition fill_row (a b : jsstring) (n i : nat) (dp : table)
  : option table :=
  for_loop (fill_cell a b i) 1 n dp.

Definition levenshtein (a b : jsstring) : option nat :=
  let m := length a in
  let n := length b in
  if decide (m = 0) then Some n
  else if decide (n = 0) then Some m
  else
    let dp := new_table (m + 1) (n + 1) in
    dp ← for_loop (λ i dp, set dp i 0 i) 0 (m + 1) dp;
    dp ← for_loop (λ j dp, set dp 0 j j) 0 (n + 1) dp;
    dp ← for_loop (fill_row a b n) 1 m dp;
    get dp m n.

(** ** The component state and what a render derives from it *)

(** A JavaScript number as far as the component uses one: a distance
    returned by [levenshtein], or [Infinity]. *)
Inductive number :=
  | Finite (n : nat)
  | Infinity.

Definition isFinite (d : number) : bool :=
  match d with
  | Finite _ => true
  | Infinity => false
  end.

(** [d <= k] for a number [d] and a finite constant [k]. *)
Definition number_le (d : number) (k : nat) : bool :=
  match d with
  | Finite n => n <=? k
  | Infinity => false
  end.

(** The slice of the settings store the dialog reads ([apiKey]), the
    [useState] cells of the component, and the list of values the store's
    setter has been called with, oldest first. *)
Record State := mkState {
  apiKey : option jsstring;
  setApiKey_calls : list jsstring;
  open : bool;
  newKey : jsstring;
  confirmKey : jsstring;
  ackReplace : bool;
  forceSmallChange : bool
}.

(** The state of the first render: [useState(false)], [useState("")]. *)
Definition initial (stored : option jsstring) : State :=
  {| apiKey := stored; setApiKey_calls := [];
     open := false; newKey := []; confirmKey := [];
     ackReplace := false; forceSmallChange := false |}.

Definition bothEntered (st : State) : bool :=
  (0 <? length (newKey st)) && (0 <? length (confirmKey st)).

Definition matches (st : State) : bool :=
  bothEntered st && bool_decide (newKey st = confirmKey st).

(** The [useMemo] callback computing [distanceFromCurrent]. *)
Definition distanceFromCurrent (st : State) : option number :=
  match apiKey st with
  | Some ((_ :: _) as key) =>
      if truthy (Some (newKey st))
      then Finite <$> levenshtein key (newKey st)
      else Some Infinity
  | _ => Some Infinity
  end.

Definition SMALL_CHANGE_THRESHOLD : nat := 2.

Definition suspiciousSmallEdit (st : State) : option bool :=
  d ← distanceFromCurrent st;
  Some (isFinite d && number_le d SMALL_CHANGE_THRESHOLD).

(** The [useMemo] callback computing [diff]; [None] is [null]. *)
Definition diff (st : State) : option Diff :=
  match apiKey st with
  | Some ((_ :: _) as key) =>
      if truthy (Some (newKey st)) then firstDiff key (newKey st) else None
  | _ => None
  end.

(** The expression bound to [canSave], as a function of the four
    constants it mentions. *)
Definition canSave (matches ackReplace suspiciousSmallEdit
    forceSmallChange : bool) : bool :=
  matches && ackReplace && (negb suspiciousSmallEdit || forceSmallChange).

(** [canSave] as the render of state [st] computes it. *)
Definition canSave_of (st : State) : option bool :=
  small ← suspiciousSmallEdit st;
  Some (canSave (matches st) (ackReplace st) small (forceSmallChange st)).

(** ** Setters and handlers *)

Definition setOpen (v : bool) (st : State) : State :=
  {| apiKey := apiKey st; setApiKey_calls := setApiKey_calls st;
     open := v; newKey := newKey st; confirmKey := confirmKey st;
     ackReplace := ackReplace st; forceSmallChange := forceSmallChange st |}.

Definition setNewKey (v : jsstring) (st : State) : State :=
  {| apiKey := apiKey st; setApiKey_calls := setApiKey_calls st;
     open := open st; newKey := v; confirmKey := confirmKey st;
     ackReplace := ackReplace st; forceSmallChange := forceSmallChange st |}.

Definition setConfirmKey (v : jsstring) (st : State) : State :=
  {| apiKey := apiKey st; setApiKey_calls := setApiKey_calls st;
     open := open st; newKey := newKey st; confirmKey := v;
     ackReplace := ackReplace st; forceSmallChange := forceSmallChange st |}.

Definition setAckReplace (v : bool) (st : State) : State :=
  {| apiKey := apiKey st; setApiKey_calls := setApiKey_calls st;
     open := open st; newKey := newKey st; confirmKey := confirmKey st;
     ackReplace := v; forceSmallChange := forceSmallChange st |}.

Definition setForceSmallChange (v : bool) (st : State) : State :=
  {| apiKey := apiKey st; setApiKey_calls := setApiKey_calls st;
     open := open st; newKey := newKey st; confirmKey := confirmKey st;
     ackReplace := ackReplace st; forceSmallChange := v |}.

(** Modelled from the spec: the setter [setApiKey] of the settings store
    ([@/app/store/appPreferences], not part of this file).  It persists
    the value it is given, so that the store's [apiKey] is that value from
    then on; the model also records the call. *)
Definition setApiKey (v : jsstring) (st : State) : State :=
  {| apiKey := Some v; setApiKey_calls := setApiKey_calls st ++ [v];
     open := open st; newKey := newKey st; confirmKey := confirmKey st;
     ackReplace := ackReplace st; forceSmallChange := forceSmallChange st |}.

Definition onOpenChange (next : bool) (st : State) : State :=
  let st := setOpen next st in
  if next then
    (* reset staging state on open *)
    let st := setNewKey [] st in
    let st := setConfirmKey [] st in
    let st := setAckReplace false st in
    setForceSmallChange false st
  else st.

Definition handleSave (st : State) : option State :=
  ok ← canSave_of st;
  if negb ok then Some st
  else
    let st := setApiKey (newKey st) st in
    Some (setOpen false st).

(** What the user can do to the component: the dialog asks to open or
    close ([onOpenChange], from the Edit trigger, the escape key or a
    click outside), the two inputs and the two switches change, and the
    Cancel and Save buttons are pressed. *)
Inductive event :=
  | OpenChange (next : bool)
  | NewKeyInput (v : jsstring)
  | ConfirmKeyInput (v : jsstring)
  | AckSwitch (v : bool)
  | ForceSwitch (v : bool)
  | CancelClick
  | SaveClick.

Definition step (st : State) (e : event) : option State :=
  match e with
  | OpenChange next => Some (onOpenChange next st)
  | NewKeyInput v => Some (setNewKey v st)
  | ConfirmKeyInput v => Some (setConfirmKey v st)
  | AckSwitch v => Some (setAckReplace v st)
  | ForceSwitch v => Some (setForceSmallChange v st)
  | CancelClick => Some (setOpen false st)
  | SaveClick => handleSave st
  end.

(** Running a list of events, oldest first. *)
Fixpoint run (st : State) (es : list event) : option State :=
  match es with
  | [] => Some st
  | e :: es' => st' ← step st e; run st' es'
  end.

(** ** What a render puts on the screen

    The parts of the returned JSX that depend on the state: the read-only
    key field, and inside the dialog the mismatch note, the small-change
    panel and the Save button. *)

(** [distanceFromCurrent === 1 ? "" : "s"], the ending of "edit". *)
Definition plural_ending (d : number) : jsstring :=
  match d with
  | Finite 1 => []
  | _ => js "s"
  end.

(** The small-change panel: the number of edits it prints with the
    ending of "edit", the first difference when [diff] is not [null]
    ([diff && ...]), and the position of its override switch. *)
Record Panel := mkPanel {
  panel_edits : number;
  panel_ending : jsstring;
  panel_diff : option Diff;
  panel_switch : bool
}.

Record View := mkView {
  (** [value={maskKey(apiKey)}] of the read-only input *)
  view_key_field : jsstring;
  (** [<Dialog open={open}>] *)
  view_dialog_open : bool;
  (** [value={newKey}] and [value={confirmKey}] of the two inputs *)
  view_new_key : jsstring;
  view_confirm_key : jsstring;
  (** [bothEntered && !matches && <p>Keys do not match...</p>] *)
  view_mismatch_note : bool;
  (** [apiKey && newKey && suspiciousSmallEdit && <div>...</div>];
      [None] when the panel is not rendered *)
  view_panel : option Panel;
  (** [checked={ackReplace}] *)
  view_ack_switch : bool;
  (** [disabled={!canSave}] of the Save button *)
  view_save_disabled : bool
}.

Definition render (st : State) : option View :=
  d ← distanceFromCurrent st;
  small ← suspiciousSmallEdit st;
  ok ← canSave_of st;
  Some {|
    view_key_field := maskKey (apiKey st) None;
    view_dialog_open := open st;
    view_new_key := newKey st;
    view_confirm_key := confirmKey st;
    view_mismatch_note := bothEntered st && negb (matches st);
    view_panel :=
      if truthy (apiKey st) && truthy (Some (newKey st)) && small then
        Some {| panel_edits := d;
                panel_ending := plural_ending d;
                panel_diff := diff st;
                panel_switch := forceSmallChange st |}
      else None;
    view_ack_switch := ackReplace st;
    view_save_disabled := negb ok
  |}.

(** Whether the screen of a view lets the user raise an event.  The
    controls are those of the UI library, which is not part of this file;
    they are taken to report changes only.  The dialog asks
    [onOpenChange] for the opposite of its [open] (the trigger while it is
    closed; the escape key or a click outside while it is open).  The
    inputs, the switches and the two buttons are in the dialog's content,
    which is on screen while the dialog is open.  An input reports a value
    other than the one it shows, a switch the opposite of its position.
    The override switch is part of the small-change panel.  A disabled
    button does not call its [onClick]. *)
Definition offers (v : View) (e : event) : bool :=
  match e with
  | OpenChange next => negb (Bool.eqb next (view_dialog_open v))
  | NewKeyInput k => view_dialog_open v && bool_decide (k ≠ view_new_key v)
  | ConfirmKeyInput k =>
      view_dialog_open v && bool_decide (k ≠ view_confirm_key v)
  | AckSwitch b => view_dialog_open v && negb (Bool.eqb b (view_ack_switch v))
  | ForceSwitch b =>
      view_dialog_open v &&
      match view_panel v with
      | Some p => negb (Bool.eqb b (panel_switch p))
      | None => false
      end
  | CancelClick => view_dialog_open v
  | SaveClick => view_dialog_open v && negb (view_save_disabled v)
  end.

(** Running a list of events each of which the screen offers when it is
    raised; [None] when one of them is not offered. *)
Fixpoint run_offered (st : State) (es : list event) : option State :=
  match es with
  | [] => Some st
  | e :: es' =>
      v ← render st;
      if offers v e then st' ← step st e; run_offered st' es' else None
  end.

(** The number of times a list of events asks the dialog to open. *)
Fixpoint openings (es : list event) : nat :=
  match es with
  | [] => 0
  | OpenChange true :: es' => S (openings es')
  | _ :: es' => openings es'
  end.

(** ** Edit distance, as the specification words it *)

Section EditDistance.
Context {A : Type} `{EqDecision A}.

(** One single-character edit: an insertion, a deletion or a
    substitution, at any position of the string. *)
Inductive edit1 : list A → list A → Prop :=
  | edit1_insert y s : edit1 s (y :: s)
  | edit1_delete x s : edit1 (x :: s) s
  | edit1_substitute x y s : edit1 (x :: s) (y :: s)
  | edit1_skip x s t : edit1 s t → edit1 (x :: s) (x :: t).

(** [edits n s t]: [n] single-character edits, one after the other,
    transform [s] into [t]. *)
Inductive edits : nat → list A → list A → Prop :=
  | edits_done s : edits 0 s s
  | edits_step n s t u : edit1 s t → edits n t u → edits (S n) s u.

(** [n] is the minimum number of single-character edits that transform
    [s] into [t]. *)
Definition min_edits (s t : list A) (n : nat) : Prop :=
  edits n s t ∧ ∀ k, edits k s t → n ≤ k.

(** The distance by recursion on the two strings, first characters
    first. *)
Fixpoint lev (s t : list A) : nat :=
  match s with
  | [] => length t
  | x :: s' =>
      (fix lev_s (t : list A) : nat :=
         match t with
         | [] => length s
         | y :: t' =>
             min3 (lev s' t + 1) (lev_s t' + 1)
                  (lev s' t' + (if decide (x = y) then 0 else 1))
         end) t
  end.
End EditDistance.

(** The recurrence of the specification over the table indices:
    row 0 and column 0 are the index sequences, and
    [dp[i][j] = min(dp[i-1][j]+1, dp[i][j-1]+1, dp[i-1][j-1] + cost)]. *)
Fixpoint dist_rec (a b : jsstring) (i : nat) : nat → nat :=
  match i with
  | 0 => λ j, j
  | S i' =>
      fix row (j : nat) : nat :=
        match j with
        | 0 => i
        | S j' =>
            min3 (dist_rec a b i' j + 1) (row j' + 1)
                 (dist_rec a b i' j' + subst_cost a b i j)
        end
  end.

(** The distance of the specification: its two base cases, and the last
    cell of the recurrence. *)
Definition distance_spec (a b : jsstring) : nat :=
  match a, b with
  | [], _ => length b
  | _, [] => length a
  | _, _ => dist_rec a b (length a) (length b)
  end.

(** ** The staging state and two example states *)

(** The four [useState] cells that [onOpenChange] resets. *)
Definition staging (st : State) : jsstring * jsstring * bool * bool :=
  (newKey st, confirmKey st, ackReplace st, forceSmallChange st).

Definition clean : jsstring * jsstring * bool * bool := ([], [], false, false).

(** The scenario of the specification: the stored key is [sk-AAAA1111],
    the user has typed [sk-AAAA1112] twice and acknowledged the
    replacement; [override] is the position of the small-change switch. *)
Definition scenario (override : bool) : State :=
  {| apiKey := Some (js "sk-AAAA1111"); setApiKey_calls := [];
     open := true;
     newKey := js "sk-AAAA1112"; confirmKey := js "sk-AAAA1112";
     ackReplace := true; forceSmallChange := override |}.

(** A dialog opened while no key is stored, with one character typed. *)
Definition no_key_stored : State :=
  {| apiKey := None; setApiKey_calls := [];
     open := true; newKey := js "s"; confirmKey := [];
     ackReplace := false; forceSmallChange := false |}.

(** ** Invariants of the table loops *)

(** Every cell of an [(m + 1) × (n + 1)] table can be read. *)
Definition full (m n : nat) (dp : table) : Prop :=
  ∀ i j, i ≤ m → j ≤ n → is_Some (get dp i j).

(** The cells filled so far hold the values of the recurrence: the rows
    above [i], the cells of row [i] left of [j], and column 0. *)
Definition filled (a b : jsstring) (i j : nat) (dp : table) : Prop :=
  full (length a) (length b) dp ∧
  ∀ i' j', i' ≤ length a → j' ≤ length b →
    i' < i ∨ (i' = i ∧ j' < j) ∨ j' = 0 →
    get dp i' j' = Some (dist_rec a b i' j').

(** * Proofs *)

(** ** The recursive distance is the minimum number of edits *)

Section EditDistanceFacts.
Context {A : Type} `{EqDecision A}.
Implicit Types (s t u : list A) (x y : A).

Lemma lev_nil_l t : lev [] t = length t.
Proof. reflexivity. Qed.

Lemma lev_nil_r s : lev s [] = length s.
Proof. destruct s; reflexivity. Qed.

Lemma lev_cons_cons x y s t :
  lev (x :: s) (y :: t) =
  min3 (lev s (y :: t) + 1) (lev (x :: s) t + 1)
       (lev s t + (if decide (x = y) then 0 else 1)).
Proof. reflexivity. Qed.

(** Induction following the three recursive calls of [lev]. *)
Lemma lev_ind2 (P : list A → list A → Prop) :
  (∀ t, P [] t) →
  (∀ s, P s []) →
  (∀ x y s t, P s (y :: t) → P (x :: s) t → P s t → P (x :: s) (y :: t)) →
  ∀ s t, P s t.
Proof.
  intros Hl Hr Hc s. induction s as [|x s IHs]; [exact Hl|].
  intros t. induction t as [|y t IHt]; [apply Hr|].
  apply Hc; [apply IHs|exact IHt|apply IHs].
Qed.

Lemma lev_insert_r s y t : lev s (y :: t) ≤ S (lev s t).
Proof.
  destruct s as [|x s]; [rewrite !lev_nil_l; simpl; lia|].
  rewrite lev_cons_cons. unfold min3. lia.
Qed.

Lemma lev_delete_l x s t : lev (x :: s) t ≤ S (lev s t).
Proof.
  destruct t as [|y t]; [rewrite !lev_nil_r; simpl; lia|].
  rewrite lev_cons_cons. unfold min3. lia.
Qed.

Lemma lev_insert_l x s t : lev s t ≤ S (lev (x :: s) t).
Proof.
  induction t as [|y t IH]; [rewrite !lev_nil_r; simpl; lia|].
  rewrite lev_cons_cons. pose proof (lev_insert_r s y t).
  unfold min3. destruct (decide (x = y)); lia.
Qed.

Lemma lev_substitute x y s t : lev (x :: s) t ≤ S (lev (y :: s) t).
Proof.
  induction t as [|z t IH]; [rewrite !lev_nil_r; simpl; lia|].
  rewrite !lev_cons_cons. unfold min3.
  destruct (decide (x = z)), (decide (y = z)); lia.
Qed.

Lemma lev_skip x s s' :
  (∀ t, lev s t ≤ S (lev s' t)) → ∀ t, lev (x :: s) t ≤ S (lev (x :: s') t).
Proof.
  intros Hs t. induction t as [|y t IH].
  - rewrite !lev_nil_r. specialize (Hs []). rewrite !lev_nil_r in Hs.
    simpl; lia.
  - rewrite !lev_cons_cons. pose proof (Hs (y :: t)). pose proof (Hs t).
    unfold min3. destruct (decide (x = y)); lia.
Qed.

(** One edit of the source changes the distance to any target by at
    most one. *)
Lemma lev_edit1 s s' : edit1 s s' → ∀ t, lev s t ≤ S (lev s' t).
Proof.
  induction 1 as [y s|x s|x y s|x s s' _ IH]; intros t.
  - apply lev_insert_l.
  - apply lev_delete_l.
  - apply lev_substitute.
  - by apply lev_skip.
Qed.

Lemma lev_refl s : lev s s = 0.
Proof.
  induction s as [|x s IH]; [reflexivity|].
  rewrite lev_cons_cons, IH. unfold min3.
  destruct (decide (x = x)); [lia|done].
Qed.

Lemma lev_lower_bound n s t : edits n s t → lev s t ≤ n.
Proof.
  induction 1 as [s|n s t u Hst _ IH].
  - rewrite lev_refl. lia.
  - pose proof (lev_edit1 _ _ Hst u). lia.
Qed.

Lemma edits_skip x n s t : edits n s t → edits n (x :: s) (x :: t).
Proof.
  induction 1 as [s|n s t u Hst _ IH]; [constructor|].
  eapply edits_step; [by apply edit1_skip|done].
Qed.

Lemma edits_insert_all t : edits (length t) [] t.
Proof.
  induction t as [|y t IH]; [constructor|]. simpl.
  eapply edits_step; [apply (edit1_insert y)|by apply edits_skip].
Qed.

Lemma edits_delete_all s : edits (length s) s [].
Proof.
  induction s as [|x s IH]; [constructor|]. simpl.
  eapply edits_step; [apply edit1_delete|done].
Qed.

Lemma lev_edits s t : edits (lev s t) s t.
Proof.
  revert s t. apply lev_ind2.
  - intros t. rewrite lev_nil_l. apply edits_insert_all.
  - intros s. rewrite lev_nil_r. apply edits_delete_all.
  - intros x y s t Hdel Hins Hsub. rewrite lev_cons_cons.
    set (c := if decide (x = y) then 0 else 1).
    assert (Hcases :
      min3 (lev s (y :: t) + 1) (lev (x :: s) t + 1) (lev s t + c)
        = S (lev s (y :: t)) ∨
      min3 (lev s (y :: t) + 1) (lev (x :: s) t + 1) (lev s t + c)
        = S (lev (x :: s) t) ∨
      min3 (lev s (y :: t) + 1) (lev (x :: s) t + 1) (lev s t + c)
        = lev s t + c) by (unfold min3; lia).
    destruct Hcases as [-> | [-> | ->]].
    + eapply edits_step; [apply edit1_delete|done].
    + eapply edits_step; [apply (edit1_insert y)|by apply edits_skip].
    + subst c. destruct (decide (x = y)) as [->|Hne].
      * rewrite Nat.add_0_r. by apply edits_skip.
      * rewrite Nat.add_1_r.
        eapply edits_step; [apply (edit1_substitute x y)|].
        by apply edits_skip.
Qed.

(** [lev s t] is the minimum number of single-character edits from [s]
    to [t]. *)
Lemma lev_min_edits s t : min_edits s t (lev s t).
Proof.
  split; [apply lev_edits|]. intros k Hk. by apply lev_lower_bound.
Qed.

Lemma min_edits_unique s t n n' : min_edits s t n → min_edits s t n' → n = n'.
Proof.
  intros [H1 H2] [H1' H2']. apply H2 in H1'. apply H2' in H1. lia.
Qed.

(** Every edit can be undone by one edit. *)
Lemma edit1_sym s t : edit1 s t → edit1 t s.
Proof. induction 1; by constructor. Qed.

Lemma edits_snoc n s t u : edits n s t → edit1 t u → edits (S n) s u.
Proof.
  induction 1 as [s|n s t' t Hst _ IH]; intros Htu.
  - eapply edits_step; [done|constructor].
  - eapply edits_step; [done|by apply IH].
Qed.

Lemma edits_sym n s t : edits n s t → edits n t s.
Proof.
  induction 1 as [s|n s t u Hst _ IH]; [constructor|].
  eapply edits_snoc; [done|by apply edit1_sym].
Qed.

Lemma lev_sym s t : lev s t = lev t s.
Proof.
  apply Nat.le_antisymm;
    apply lev_lower_bound, edits_sym, lev_edits.
Qed.

(** Edits commute with reading both strings backwards. *)
Lemma edit1_app_l r s t : edit1 s t → edit1 (r ++ s) (r ++ t).
Proof. intros Hst. induction r; [done|by apply edit1_skip]. Qed.

Lemma edit1_app_r r s t : edit1 s t → edit1 (s ++ r) (t ++ r).
Proof. induction 1; simpl; by constructor. Qed.

Lemma edit1_reverse s t : edit1 s t → edit1 (reverse s) (reverse t).
Proof.
  induction 1 as [y s|x s|x y s|x s t _ IH]; rewrite ?reverse_cons.
  - rewrite <-(app_nil_r (reverse s)) at 1. apply edit1_app_l. constructor.
  - rewrite <-(app_nil_r (reverse s)) at 2. apply edit1_app_l. constructor.
  - apply edit1_app_l. constructor.
  - by apply edit1_app_r.
Qed.

Lemma edits_reverse n s t : edits n s t → edits n (reverse s) (reverse t).
Proof.
  induction 1 as [s|n s t u Hst _ IH]; [constructor|].
  eapply edits_step; [by apply edit1_reverse|done].
Qed.

Lemma lev_reverse s t : lev (reverse s) (reverse t) = lev s t.
Proof.
  apply Nat.le_antisymm.
  - apply lev_lower_bound, edits_reverse, lev_edits.
  - rewrite <-(reverse_involutive s), <-(reverse_involutive t) at 1.
    apply lev_lower_bound, edits_reverse, lev_edits.
Qed.

Lemma edits_0_eq s t : edits 0 s t → s = t.
Proof. by inversion 1. Qed.

Lemma lev_0_iff s t : lev s t = 0 ↔ s = t.
Proof.
  split; [|intros ->; apply lev_refl].
  intros H0. apply edits_0_eq. rewrite <-H0. apply lev_edits.
Qed.
End EditDistanceFacts.

(** ** The recurrence over the table indices computes [lev] *)

Lemma dist_rec_0_l a b j : dist_rec a b 0 j = j.
Proof. reflexivity. Qed.

Lemma dist_rec_0_r a b i : dist_rec a b i 0 = i.
Proof. destruct i; reflexivity. Qed.

Lemma dist_rec_S_S a b i j :
  dist_rec a b (S i) (S j) =
  min3 (dist_rec a b i (S j) + 1) (dist_rec a b (S i) j + 1)
       (dist_rec a b i j + subst_cost a b (S i) (S j)).
Proof. reflexivity. Qed.

Lemma subst_cost_lookup a b i j x y :
  a !! i = Some x → b !! j = Some y →
  subst_cost a b (S i) (S j) = if decide (x = y) then 0 else 1.
Proof.
  intros Ha Hb. unfold subst_cost, strict_eq, char_at.
  rewrite !Nat.sub_1_r; simpl. rewrite Ha, Hb.
  destruct (decide (x = y)) as [->|Hne].
  - by rewrite bool_decide_eq_true_2.
  - rewrite bool_decide_eq_false_2; [done|congruence].
Qed.

Lemma reverse_take_S {A} (l : list A) i x :
  l !! i = Some x → reverse (take (S i) l) = x :: reverse (take i l).
Proof.
  intros Hl. rewrite (take_S_r _ _ _ Hl), reverse_app. reflexivity.
Qed.

Lemma dist_rec_lev a b i j :
  i ≤ length a → j ≤ length b →
  dist_rec a b i j = lev (reverse (take i a)) (reverse (take j b)).
Proof.
  revert j. induction i as [|i IHi]; intros j Hi Hj.
  - rewrite dist_rec_0_l, take_0, reverse_nil, lev_nil_l, length_reverse,
      length_take. lia.
  - induction j as [|j IHj].
    + rewrite dist_rec_0_r, take_0, reverse_nil, lev_nil_r, length_reverse,
        length_take. lia.
    + destruct (lookup_lt_is_Some_2 a i) as [x Hx]; [lia|].
      destruct (lookup_lt_is_Some_2 b j) as [y Hy]; [lia|].
      rewrite dist_rec_S_S, (subst_cost_lookup _ _ _ _ _ _ Hx Hy).
      rewrite IHj by lia. rewrite !IHi by lia.
      rewrite (reverse_take_S _ _ _ Hx), (reverse_take_S _ _ _ Hy).
      by rewrite lev_cons_cons.
Qed.

Lemma dist_rec_full a b : dist_rec a b (length a) (length b) = lev a b.
Proof.
  rewrite dist_rec_lev by lia. rewrite !firstn_all. apply lev_reverse.
Qed.

Lemma distance_spec_lev a b : distance_spec a b = lev a b.
Proof.
  unfold distance_spec. destruct a as [|x a]; [reflexivity|].
  destruct b as [|y b]; [reflexivity|]. apply dist_rec_full.
Qed.

(** ** The table of [levenshtein] *)

Lemma get_new_table rows cols i j :
  i < rows → j < cols → get (new_table rows cols) i j = Some 0.
Proof.
  intros Hi Hj. unfold get, new_table.
  rewrite lookup_replicate_2 by done. simpl.
  by apply lookup_replicate_2.
Qed.

Lemma set_is_Some dp i j v : is_Some (get dp i j) → is_Some (set dp i j v).
Proof.
  unfold get, set. destruct (dp !! i) as [row|]; simpl; [|by intros [? ?]].
  intros Hrow%lookup_lt_is_Some_1. by rewrite decide_True.
Qed.

Lemma get_set_eq dp dp' i j v : set dp i j v = Some dp' → get dp' i j = Some v.
Proof.
  unfold get, set. destruct (dp !! i) as [row|] eqn:Hrow; simpl; [|done].
  destruct (decide (j < length row)); [|done]. intros [= <-].
  rewrite list_lookup_insert_eq by by eapply lookup_lt_Some. simpl.
  by apply list_lookup_insert_eq.
Qed.

Lemma get_set_ne dp dp' i j v i' j' :
  set dp i j v = Some dp' → (i', j') ≠ (i, j) → get dp' i' j' = get dp i' j'.
Proof.
  unfold get, set. destruct (dp !! i) as [row|] eqn:Hrow; simpl; [|done].
  destruct (decide (j < length row)); [|done]. intros [= <-] Hne.
  destruct (decide (i' = i)) as [->|Hi].
  - rewrite list_lookup_insert_eq by by eapply lookup_lt_Some.
    rewrite Hrow. simpl. apply list_lookup_insert_ne. congruence.
  - by rewrite list_lookup_insert_ne.
Qed.

Lemma full_new_table m n : full m n (new_table (m + 1) (n + 1)).
Proof. intros i j Hi Hj. rewrite get_new_table by lia. by eexists. Qed.

Lemma full_set m n dp dp' i j v :
  full m n dp → set dp i j v = Some dp' → full m n dp'.
Proof.
  intros Hfull Hset i' j' Hi' Hj'.
  destruct (decide ((i', j') = (i, j))) as [[= -> ->]|Hne].
  - rewrite (get_set_eq _ _ _ _ _ Hset). by eexists.
  - rewrite (get_set_ne _ _ _ _ _ _ _ Hset Hne). by apply Hfull.
Qed.

(** The invariant rule for counting loops: a body that succeeds and
    re-establishes the invariant at every index of the loop makes the
    loop succeed, with the invariant at the index after the last. *)
Lemma for_loop_inv {St : Type} (I : nat → St → Prop)
    (body : nat → St → option St) (i todo : nat) (s : St) :
  I i s →
  (∀ k s, i ≤ k < i + todo → I k s → ∃ s', body k s = Some s' ∧ I (S k) s') →
  ∃ s', for_loop body i todo s = Some s' ∧ I (i + todo) s'.
Proof.
  revert i s. induction todo as [|todo IH]; intros i s Hs Hbody.
  - exists s. rewrite Nat.add_0_r. done.
  - destruct (Hbody i s) as (s1 & Hs1 & HI1); [lia|done|].
    destruct (IH (S i) s1) as (s' & Hs' & HI'); [done| |].
    { intros k s2 Hk. apply Hbody. lia. }
    exists s'. simpl. rewrite Hs1. simpl.
    by rewrite <-Nat.add_succ_comm.
Qed.

Section Table.
Variables (a b : jsstring).
Local Abbreviation m := (length a).
Local Abbreviation n := (length b).
Local Abbreviation filled := (filled a b).

Lemma init_column :
  ∃ dp, for_loop (λ i dp, set dp i 0 i) 0 (m + 1)
          (new_table (m + 1) (n + 1)) = Some dp ∧
        full m n dp ∧ ∀ i, i ≤ m → get dp i 0 = Some i.
Proof.
  destruct (for_loop_inv
    (λ k dp, full m n dp ∧ ∀ i, i < k → get dp i 0 = Some i)
    (λ i dp, set dp i 0 i) 0 (m + 1) (new_table (m + 1) (n + 1)))
    as (dp & Hdp & Hfull & Hcol).
  - split; [apply full_new_table|]. intros i Hi. lia.
  - intros k dp Hk [Hfull Hcol].
    destruct (set_is_Some dp k 0 k) as [dp' Hset]; [apply Hfull; lia|].
    exists dp'. split; [done|]. split; [by eapply full_set|].
    intros i Hi. destruct (decide (i = k)) as [->|Hne].
    + by apply (get_set_eq dp).
    + rewrite (get_set_ne _ _ _ _ _ _ _ Hset) by congruence.
      apply Hcol. lia.
  - exists dp. split; [done|]. split; [done|].
    intros i Hi. apply Hcol. lia.
Qed.

Lemma init_row dp :
  full m n dp → (∀ i, i ≤ m → get dp i 0 = Some i) →
  ∃ dp', for_loop (λ j dp, set dp 0 j j) 0 (n + 1) dp = Some dp' ∧
         filled 1 0 dp'.
Proof.
  intros Hfull Hcol.
  destruct (for_loop_inv
    (λ k dp, full m n dp ∧ (∀ i, i ≤ m → get dp i 0 = Some i) ∧
             ∀ j, j < k → get dp 0 j = Some j)
    (λ j dp, set dp 0 j j) 0 (n + 1) dp)
    as (dp' & Hdp' & Hfull' & Hcol' & Hrow').
  - split; [done|]. split; [done|]. intros j Hj. lia.
  - intros k dp1 Hk (Hfull1 & Hcol1 & Hrow1).
    destruct (set_is_Some dp1 0 k k) as [dp2 Hset]; [apply Hfull1; lia|].
    exists dp2. split; [done|]. split; [by eapply full_set|]. split.
    + intros i Hi. destruct (decide ((i, 0) = (0, k))) as [[= -> <-]|Hne].
      * by apply (get_set_eq dp1).
      * rewrite (get_set_ne _ _ _ _ _ _ _ Hset Hne). by apply Hcol1.
    + intros j Hj. destruct (decide (j = k)) as [->|Hne].
      * by apply (get_set_eq dp1).
      * rewrite (get_set_ne _ _ _ _ _ _ _ Hset) by congruence.
        apply Hrow1. lia.
  - exists dp'. split; [done|]. split; [done|].
    intros i j Hi Hj [Hlt | [[_ Hlt] | ->]].
    + assert (i = 0) as -> by lia. rewrite dist_rec_0_l. apply Hrow'. lia.
    + lia.
    + rewrite dist_rec_0_r. by apply Hcol'.
Qed.

Lemma fill_cell_filled i j dp :
  1 ≤ i ≤ m → 1 ≤ j ≤ n → filled i j dp →
  ∃ dp', fill_cell a b i j dp = Some dp' ∧ filled i (S j) dp'.
Proof.
  intros Hi Hj [Hfull Hdp]. unfold fill_cell.
  destruct i as [|i]; [lia|]. destruct j as [|j]; [lia|].
  rewrite !Nat.sub_1_r; simpl Nat.pred.
  rewrite !Hdp by lia. simpl.
  rewrite <-dist_rec_S_S.
  destruct (set_is_Some dp (S i) (S j) (dist_rec a b (S i) (S j)))
    as [dp' Hset]; [apply Hfull; lia|].
  exists dp'. split; [done|]. split; [by eapply full_set|].
  intros i' j' Hi' Hj' Hcell.
  destruct (decide ((i', j') = (S i, S j))) as [[= -> ->]|Hne].
  - by apply (get_set_eq dp).
  - rewrite (get_set_ne _ _ _ _ _ _ _ Hset Hne). apply Hdp; [done..|].
    destruct (decide (j' = S j)) as [->|]; [|lia].
    destruct (decide (i' = S i)) as [->|]; [done|lia].
Qed.

Lemma fill_row_filled i dp :
  1 ≤ i ≤ m → filled i 0 dp →
  ∃ dp', fill_row a b n i dp = Some dp' ∧ filled (S i) 0 dp'.
Proof.
  intros Hi Hdp. unfold fill_row.
  destruct (for_loop_inv (λ j dp, filled i j dp) (fill_cell a b i) 1 n dp)
    as (dp' & Hdp' & Hfull' & Hcells').
  - destruct Hdp as [Hfull Hcells]. split; [done|].
    intros i' j' Hi' Hj' Hcell. apply Hcells; [done..|]. lia.
  - intros j dp1 Hj Hdp1. apply fill_cell_filled; [done|lia|done].
  - exists dp'. split; [done|]. split; [done|].
    intros i' j' Hi' Hj' Hcell. apply Hcells'; [done..|]. lia.
Qed.

Lemma fill_table dp :
  filled 1 0 dp →
  ∃ dp', for_loop (fill_row a b n) 1 m dp = Some dp' ∧
         get dp' m n = Some (dist_rec a b m n).
Proof.
  intros Hdp.
  destruct (for_loop_inv (λ i dp, filled i 0 dp) (fill_row a b n) 1 m dp)
    as (dp' & Hdp' & Hfull' & Hcells'); [done| |].
  - intros i dp1 Hi Hdp1. apply fill_row_filled; [lia|done].
  - exists dp'. split; [done|]. apply Hcells'; [done..|]. lia.
Qed.
Lemma levenshtein_table :
  m ≠ 0 → n ≠ 0 → levenshtein a b = Some (dist_rec a b m n).
Proof.
  intros Hm Hn. unfold levenshtein. cbv zeta.
  rewrite !decide_False by done.
  destruct init_column as (dp1 & -> & Hfull1 & Hcol1).
  cbn [mbind option_bind].
  destruct (init_row dp1 Hfull1 Hcol1) as (dp2 & -> & Hdp2).
  cbn [mbind option_bind].
  destruct (fill_table dp2 Hdp2) as (dp3 & -> & Hget).
  exact Hget.
Qed.
End Table.

(** [levenshtein] returns, and returns the distance of the specification. *)
Lemma levenshtein_distance_spec a b :
  levenshtein a b = Some (distance_spec a b).
Proof.
  destruct a as [|x a]; [reflexivity|].
  destruct b as [|y b]; [reflexivity|].
  by apply levenshtein_table.
Qed.

Lemma levenshtein_total a b : levenshtein a b = Some (lev a b).
Proof. by rewrite levenshtein_distance_spec, distance_spec_lev. Qed.

(** ** [slice], [maskKey] and [firstDiff] *)

(** [s.slice(-k)] for [0 < k <= s.length] keeps the last [k] code units. *)
Lemma slice_last (s : jsstring) (k : nat) :
  0 < k ≤ length s → slice s (- Z.of_nat k) None = drop (length s - k) s.
Proof.
  intros Hk. unfold slice, relative_index.
  destruct (Z.ltb_spec (- Z.of_nat k) 0) as [_|?]; [|lia].
  replace (Z.to_nat (Z.max (Z.of_nat (length s) + - Z.of_nat k) 0))
    with (length s - k) by lia.
  apply take_ge. rewrite length_drop. lia.
Qed.

(** [s.slice(-0)] is [s.slice(0)]: the whole string. *)
Lemma slice_zero (s : jsstring) : slice s (- 0) None = s.
Proof.
  unfold slice, relative_index. change (- 0)%Z with 0%Z.
  change (0 <? 0)%Z with false. cbv iota.
  replace (Z.to_nat (0 `min` Z.of_nat (length s))) with 0 by lia.
  rewrite drop_0, Nat.sub_0_r. by apply take_ge.
Qed.

(** [s.slice(from, to)] for in-range non-negative arguments: the code
    units at the positions [from ≤ k < to], as far as [s] has them. *)
Lemma slice_range (s : jsstring) (from to : nat) :
  slice s (Z.of_nat from) (Some (Z.of_nat to)) = take (to - from) (drop from s).
Proof.
  unfold slice, relative_index.
  destruct (Z.ltb_spec (Z.of_nat from) 0) as [?|_]; [lia|].
  destruct (Z.ltb_spec (Z.of_nat to) 0) as [?|_]; [lia|].
  replace (Z.to_nat (Z.min (Z.of_nat from) (Z.of_nat (length s))))
    with (from `min` length s) by lia.
  replace (Z.to_nat (Z.min (Z.of_nat to) (Z.of_nat (length s))))
    with (to `min` length s) by lia.
  destruct (decide (from < length s)) as [Hlt|Hge].
  - rewrite (Nat.min_l from) by lia.
    destruct (decide (to ≤ length s)) as [Hto|Hto].
    + by rewrite (Nat.min_l to) by lia.
    + rewrite (Nat.min_r to) by lia.
      rewrite !take_ge; [done|rewrite length_drop; lia..].
  - rewrite (Nat.min_r from) by lia.
    rewrite !drop_ge by lia. by rewrite !take_nil.
Qed.

Lemma maskKey_visible (key : jsstring) (suffix : Z) :
  key ≠ [] → (0 < suffix)%Z →
  maskKey (Some key) (Some suffix) =
  prefix_marker ++ drop (length key - Z.to_nat suffix) key.
Proof.
  intros Hkey Hsuffix. destruct key as [|c key]; [done|].
  unfold maskKey, default, from_option, id. f_equal.
  set (s := c :: key) in *.
  replace (Z.max 0 (Z.min suffix (Z.of_nat (length s))))
    with (Z.of_nat (Z.to_nat suffix `min` length s)) by lia.
  rewrite slice_last by (subst s; simpl; lia).
  f_equal. lia.
Qed.

Lemma maskKey_hidden (key : jsstring) (suffix : Z) :
  key ≠ [] → (suffix ≤ 0)%Z →
  maskKey (Some key) (Some suffix) = prefix_marker ++ key.
Proof.
  intros Hkey Hsuffix. destruct key as [|c key]; [done|].
  unfold maskKey, default, from_option, id. f_equal.
  set (s := c :: key) in *.
  replace (Z.max 0 (Z.min suffix (Z.of_nat (length s)))) with 0%Z by lia.
  apply slice_zero.
Qed.

(** What the loop of [firstDiff] returns when started at index [i]. *)
Lemma firstDiff_loop_None a b max i todo :
  firstDiff_loop a b max i todo = None ↔
  ∀ k, i ≤ k < i + todo → a !! k = b !! k.
Proof.
  revert i. induction todo as [|todo IH]; intros i; simpl.
  - split; [intros _ k Hk; lia|done].
  - unfold strict_ne, char_at. case_bool_decide as Hi.
    + split; [done|]. intros Hall. destruct Hi. apply Hall. lia.
    + rewrite IH. split.
      * intros Hall k Hk. destruct (decide (k = i)) as [->|]; [done|].
        apply Hall. lia.
      * intros Hall k Hk. apply Hall. lia.
Qed.

Lemma firstDiff_loop_Some a b max i todo d :
  firstDiff_loop a b max i todo = Some d →
  i ≤ diff_index d < i + todo ∧
  a !! diff_index d ≠ b !! diff_index d ∧
  (∀ k, i ≤ k < diff_index d → a !! k = b !! k) ∧
  diff_left d =
    take (max `min` (diff_index d + 4) - (diff_index d - 3))
         (drop (diff_index d - 3) a) ∧
  diff_right d =
    take (max `min` (diff_index d + 4) - (diff_index d - 3))
         (drop (diff_index d - 3) b).
Proof.
  revert i. induction todo as [|todo IH]; intros i; simpl; [done|].
  unfold strict_ne, char_at. case_bool_decide as Hi.
  - intros [= <-]. simpl.
    replace (Z.max 0 (Z.of_nat i - 3)) with (Z.of_nat (i - 3)) by lia.
    replace (Z.min (Z.of_nat max) (Z.of_nat i + 4))
      with (Z.of_nat (max `min` (i + 4))) by lia.
    rewrite !slice_range. repeat split; [lia..|done|intros k Hk; lia].
  - intros Hd. apply IH in Hd as (Hidx & Hne & Heq & Hl & Hr).
    repeat split; [lia..|done| |done|done].
    intros k Hk. destruct (decide (k = i)) as [->|]; [done|].
    apply Heq. lia.
Qed.

Lemma lookup_all_eq (a b : jsstring) :
  (∀ k, k < length a `max` length b → a !! k = b !! k) ↔ a = b.
Proof.
  split; [|by intros ->]. intros Hall. apply list_eq. intros k.
  destruct (decide (k < length a `max` length b)); [by apply Hall|].
  rewrite !lookup_ge_None_2 by lia. done.
Qed.

Lemma firstDiff_None a b : firstDiff a b = None ↔ a = b.
Proof.
  unfold firstDiff. rewrite firstDiff_loop_None, <-lookup_all_eq.
  split; intros Hall k Hk; apply Hall; lia.
Qed.

(** ** The derived values of a render *)

Lemma truthy_Some (s : jsstring) : truthy (Some s) = true ↔ s ≠ [].
Proof. destruct s; simpl; split; done. Qed.

Lemma distanceFromCurrent_absent st :
  truthy (apiKey st) = false ∨ newKey st = [] →
  distanceFromCurrent st = Some Infinity.
Proof.
  unfold distanceFromCurrent.
  destruct (apiKey st) as [[|c key]|]; simpl; [done| |done].
  intros [?| ->]; done.
Qed.

Lemma distanceFromCurrent_present st key :
  apiKey st = Some key → key ≠ [] → newKey st ≠ [] →
  distanceFromCurrent st = Some (Finite (lev key (newKey st))).
Proof.
  unfold distanceFromCurrent. intros -> Hkey Hnew.
  destruct key as [|c key]; [done|].
  apply truthy_Some in Hnew. rewrite Hnew.
  by rewrite levenshtein_total.
Qed.

Lemma distanceFromCurrent_total st : is_Some (distanceFromCurrent st).
Proof.
  destruct (apiKey st) as [key|] eqn:Hkey.
  - destruct (decide (key = [])) as [->|Hne].
    + rewrite distanceFromCurrent_absent; [done|]. left. by rewrite Hkey.
    + destruct (decide (newKey st = [])) as [Hnew|Hnew].
      * rewrite distanceFromCurrent_absent; [done|]. by right.
      * by rewrite (distanceFromCurrent_present _ _ Hkey Hne Hnew).
  - rewrite distanceFromCurrent_absent; [done|]. left. by rewrite Hkey.
Qed.

Lemma suspiciousSmallEdit_total st : is_Some (suspiciousSmallEdit st).
Proof.
  unfold suspiciousSmallEdit.
  destruct (distanceFromCurrent_total st) as [d ->]. done.
Qed.

Lemma canSave_of_total st : is_Some (canSave_of st).
Proof.
  unfold canSave_of. destruct (suspiciousSmallEdit_total st) as [d ->]. done.
Qed.

Lemma canSave_true m a s o :
  canSave m a s o = true ↔ m = true ∧ a = true ∧ (s = false ∨ o = true).
Proof. destruct m, a, s, o; cbn; intuition congruence. Qed.

Lemma matches_true st :
  matches st = true ↔
  newKey st ≠ [] ∧ confirmKey st ≠ [] ∧ newKey st = confirmKey st.
Proof.
  unfold matches, bothEntered.
  destruct (newKey st) as [|c k], (confirmKey st) as [|c' k']; simpl;
    rewrite ?bool_decide_eq_true;
    (split; [try done|by intros (? & ? & ?)]).
Qed.

Lemma handleSave_blocked st :
  canSave_of st = Some false → handleSave st = Some st.
Proof. unfold handleSave. by intros ->. Qed.

Lemma handleSave_saves st :
  canSave_of st = Some true →
  handleSave st = Some (setOpen false (setApiKey (newKey st) st)).
Proof. unfold handleSave. by intros ->. Qed.

Lemma step_total st e : is_Some (step st e).
Proof.
  destruct e; simpl; try done. unfold handleSave.
  destruct (canSave_of_total st) as [[] ->]; done.
Qed.

Lemma run_total es : ∀ st, is_Some (run st es).
Proof.
  induction es as [|e es IH]; intros st; simpl; [done|].
  destruct (step_total st e) as [st' ->]. apply IH.
Qed.

(** What one event does to the stored key and to the list of setter
    calls: nothing, unless it is a save that [canSave] lets through. *)
Lemma step_setApiKey st e :
  ∃ st', step st e = Some st' ∧
    ((setApiKey_calls st' = setApiKey_calls st ∧ apiKey st' = apiKey st) ∨
     (e = SaveClick ∧ canSave_of st = Some true ∧
      matches st = true ∧ ackReplace st = true ∧
      setApiKey_calls st' = setApiKey_calls st ++ [newKey st] ∧
      apiKey st' = Some (newKey st))).
Proof.
  destruct e; simpl; try (eexists; split; [done|by left]).
  - eexists; split; [done|]. left. by destruct next.
  - unfold handleSave. destruct (canSave_of st) as [[]|] eqn:Hok; simpl.
    + assert (matches st = true ∧ ackReplace st = true) as [Hm Ha].
      { unfold canSave_of in Hok.
        destruct (suspiciousSmallEdit st) as [small|]; [|done].
        simpl in Hok. injection Hok as Hok.
        apply canSave_true in Hok. tauto. }
      eexists; split; [reflexivity|]. right. by repeat split.
    + eexists; split; [done|by left].
    + destruct (canSave_of_total st) as [? ?]. congruence.
Qed.

(** The invariant rule for runs of events. *)
Lemma run_inv (I : State → Prop) :
  (∀ st e st', I st → step st e = Some st' → I st') →
  ∀ es st st', I st → run st es = Some st' → I st'.
Proof.
  intros Hstep es. induction es as [|e es IH]; intros st st' Hst; simpl.
  - by intros [= <-].
  - destruct (step st e) as [st1|] eqn:He; simpl; [|done].
    apply IH. by eapply Hstep.
Qed.

(** Sequences of edits compose, and an edit changes the length by at
    most one. *)
Lemma edits_trans {A} n k (s t u : list A) :
  edits n s t → edits k t u → edits (n + k) s u.
Proof.
  induction 1 as [s|n s s' t Hs _ IH]; intros Htu; [done|].
  simpl. eapply edits_step; [done|by apply IH].
Qed.

Lemma edit1_length {A} (s t : list A) :
  edit1 s t → length s ≤ S (length t) ∧ length t ≤ S (length s).
Proof. induction 1; simpl; lia. Qed.

Lemma edits_length {A} n (s t : list A) :
  edits n s t → length s ≤ length t + n ∧ length t ≤ length s + n.
Proof.
  induction 1 as [s|n s s' t Hs%edit1_length _ IH]; lia.
Qed.

Lemma lev_triangle {A} `{EqDecision A} (s t u : list A) :
  lev s u ≤ lev s t + lev t u.
Proof.
  apply lev_lower_bound. eapply edits_trans; apply lev_edits.
Qed.

Lemma lev_le_max {A} `{EqDecision A} (s t : list A) :
  lev s t ≤ length s `max` length t.
Proof.
  revert s t. apply lev_ind2.
  - intros t. rewrite lev_nil_l. simpl. lia.
  - intros s. rewrite lev_nil_r. simpl. lia.
  - intros x y s t _ _ IH. rewrite lev_cons_cons. unfold min3. simpl.
    destruct (decide (x = y)); lia.
Qed.

(** * The claims *)

(** C1: for all boolean inputs, [canSave] is [matches AND acknowledged AND
    (NOT smallEditDetected OR smallEditOverridden)]; it is false whenever
    [matches] or [acknowledged] is false, false for a small edit without
    the override, and true when [matches] and [acknowledged] hold and
    either no small edit is detected or the override is set.  Every render
    computes its [canSave] by this expression from its derived values. *)
Theorem canSave_gate (m a s o : bool) :
  canSave m a s o = m && a && (negb s || o) ∧
  (canSave m a s o = true ↔ m = true ∧ a = true ∧ (s = false ∨ o = true)) ∧
  canSave false a s o = false ∧
  canSave m false s o = false ∧
  canSave m a true false = false ∧
  canSave true true false o = true ∧
  canSave true true s true = true ∧
  ∀ st, ∃ small,
    suspiciousSmallEdit st = Some small ∧
    canSave_of st =
      Some (canSave (matches st) (ackReplace st) small (forceSmallChange st)).
Proof.
  split; [reflexivity|]. split; [apply canSave_true|].
  repeat split; try (by destruct m, a, s, o).
  intros st. unfold canSave_of.
  destruct (suspiciousSmallEdit_total st) as [small ->]. by exists small.
Qed.

(** C2: [levenshtein a b] returns the classic Levenshtein distance: the
    minimum number of single-character insertions, deletions and
    substitutions that transform [a] into [b], which is also the value the
    specification defines by its base cases and its recurrence over the
    table.  So [levenshtein "" b] is the length of [b], [levenshtein a ""]
    the length of [a], the distance is symmetric, it is 0 from a string to
    itself, 1 from "abcd" to "abcf" and 3 from "kitten" to "sitting". *)
Theorem levenshtein_edit_distance (a b : jsstring) :
  (∃ d, levenshtein a b = Some d ∧ min_edits a b d ∧ d = distance_spec a b) ∧
  levenshtein [] b = Some (length b) ∧
  levenshtein a [] = Some (length a) ∧
  levenshtein a b = levenshtein b a ∧
  levenshtein a a = Some 0 ∧
  levenshtein (js "abcd") (js "abcf") = Some 1 ∧
  levenshtein (js "kitten") (js "sitting") = Some 3.
Proof.
  split.
  { exists (lev a b). split; [apply levenshtein_total|].
    split; [apply lev_min_edits|]. by rewrite distance_spec_lev. }
  rewrite !levenshtein_total, lev_nil_l, lev_nil_r, lev_refl.
  repeat split. f_equal. apply lev_sym.
Qed.

(** C9: [levenshtein a b] is 0 exactly when [a] and [b] are the same
    string. *)
Theorem levenshtein_zero_iff (a b : jsstring) :
  levenshtein a b = Some 0 ↔ a = b.
Proof.
  rewrite levenshtein_total. split.
  - intros [= H0]. by apply lev_0_iff.
  - intros ->. by rewrite lev_refl.
Qed.

(** C3, as the code has it: closing the dialog (through [onOpenChange] or
    the Cancel button) and saving set [open] to false and leave the new
    key, the confirmation, the acknowledgement and the override as they
    were; it is [onOpenChange(true)] that resets the four to their empty
    and false initial values, so that a dialog that opens is clean in
    every state, whatever events led to it. *)
Theorem staging_reset_on_open (st : State) :
  (open (onOpenChange false st) = false ∧
   staging (onOpenChange false st) = staging st) ∧
  (step st CancelClick = Some (setOpen false st) ∧
   open (setOpen false st) = false ∧
   staging (setOpen false st) = staging st) ∧
  (∃ ok st',
     canSave_of st = Some ok ∧ handleSave st = Some st' ∧
     open st' = (if ok then false else open st) ∧
     staging st' = staging st) ∧
  (open (onOpenChange true st) = true ∧
   staging (onOpenChange true st) = clean ∧
   apiKey (onOpenChange true st) = apiKey st ∧
   setApiKey_calls (onOpenChange true st) = setApiKey_calls st) ∧
  ∀ es, ∃ st',
    run st es = Some st' ∧
    open (onOpenChange true st') = true ∧
    staging (onOpenChange true st') = clean.
Proof.
  split; [done|]. split; [done|]. split.
  { destruct (canSave_of_total st) as [ok Hok]. unfold handleSave.
    rewrite Hok. destruct ok; simpl; eauto 10. }
  split; [done|]. intros es.
  destruct (run_total es st) as [st' ->]. by exists st'.
Qed.

(** C3, as the claim states it, fails: closing the dialog of the
    scenario, or saving from it, keeps the typed key, its confirmation and
    both switches; nothing returns to its initial value. *)
Lemma closing_keeps_staging :
  staging (onOpenChange false (scenario true)) =
    (js "sk-AAAA1112", js "sk-AAAA1112", true, true) ∧
  staging (setOpen false (scenario true)) =
    (js "sk-AAAA1112", js "sk-AAAA1112", true, true) ∧
  staging <$> handleSave (scenario true) =
    Some (js "sk-AAAA1112", js "sk-AAAA1112", true, true) ∧
  open <$> handleSave (scenario true) = Some false ∧
  staging (onOpenChange false (scenario true)) ≠ clean.
Proof. repeat split; try by vm_compute. Qed.

(** C4: [firstDiff a b] is [null] exactly when [a] and [b] are equal;
    otherwise its index is the smallest [i] below the longer length at
    which [a[i]] and [b[i]] differ ([undefined] past the end of a string
    differs from every character), and [left] and [right] are the slices of
    [a] and [b] over the one range from [max(0, i - 3)] to
    [min(max, i + 4)].  When one string is a strict prefix of the other
    the index is the shorter length.  For "abcXdef" and "abcYdef" the
    index is 3 and both contexts are the whole strings. *)
Theorem firstDiff_spec (a b : jsstring) :
  match firstDiff a b with
  | None => a = b
  | Some d =>
      let i := diff_index d in
      let lo := i - 3 in
      let hi := (length a `max` length b) `min` (i + 4) in
      a ≠ b ∧
      i < length a `max` length b ∧
      a !! i ≠ b !! i ∧
      (∀ k, k < i → a !! k = b !! k) ∧
      diff_left d = take (hi - lo) (drop lo a) ∧
      diff_right d = take (hi - lo) (drop lo b)
  end ∧
  (firstDiff a b = None ↔ a = b) ∧
  (∀ c, c ≠ [] →
     diff_index <$> firstDiff a (a ++ c) = Some (length a) ∧
     diff_index <$> firstDiff (b ++ c) b = Some (length b)) ∧
  firstDiff (js "abc") (js "abcd") = Some (mkDiff 3 (js "abc") (js "abcd")) ∧
  firstDiff (js "abcXdef") (js "abcYdef") =
    Some (mkDiff 3 (js "abcXdef") (js "abcYdef")).
Proof.
  assert (Hprefix : ∀ (s c : jsstring) d, c ≠ [] →
    (firstDiff s (s ++ c) = Some d ∨ firstDiff (s ++ c) s = Some d) →
    diff_index d = length s).
  { intros s c d Hc Hd.
    assert (Hlen : length s < length (s ++ c)).
    { rewrite length_app. destruct c; [done|simpl; lia]. }
    assert (Hsame : ∀ k, k < length s → s !! k = (s ++ c) !! k).
    { intros k Hk. by rewrite lookup_app_l. }
    destruct Hd as [Hd|Hd]; apply firstDiff_loop_Some in Hd
      as (Hidx & Hne & Heq & _).
    - destruct (decide (diff_index d < length s)) as [Hlt|Hge].
      { destruct Hne. by apply Hsame. }
      destruct (decide (length s < diff_index d)) as [Hgt|]; [|lia].
      specialize (Heq (length s)). rewrite lookup_ge_None_2 in Heq by lia.
      destruct (lookup_lt_is_Some_2 (s ++ c) (length s)) as [x Hx]; [lia|].
      rewrite Hx in Heq. discriminate Heq. lia.
    - destruct (decide (diff_index d < length s)) as [Hlt|Hge].
      { destruct Hne. symmetry. by apply Hsame. }
      destruct (decide (length s < diff_index d)) as [Hgt|]; [|lia].
      specialize (Heq (length s)). rewrite (lookup_ge_None_2 s) in Heq by lia.
      destruct (lookup_lt_is_Some_2 (s ++ c) (length s)) as [x Hx]; [lia|].
      rewrite Hx in Heq. discriminate Heq. lia. }
  split; [|split; [apply firstDiff_None|split; [|by vm_compute]]].
  - destruct (firstDiff a b) as [d|] eqn:Hd; [|by apply firstDiff_None].
    assert (Hab : a ≠ b).
    { intros Hab%firstDiff_None. congruence. }
    apply firstDiff_loop_Some in Hd as (Hidx & Hne & Heq & Hl & Hr).
    cbv zeta. repeat split; [done|lia|done| |done|done].
    intros k Hk. apply Heq. lia.
  - intros c Hc. split.
    + destruct (firstDiff a (a ++ c)) as [d|] eqn:Hd; simpl.
      * f_equal. eapply Hprefix; eauto.
      * apply firstDiff_None in Hd. apply (f_equal length) in Hd.
        rewrite length_app in Hd. destruct c; [done|simpl in Hd; lia].
    + destruct (firstDiff (b ++ c) b) as [d|] eqn:Hd; simpl.
      * f_equal. eapply Hprefix; eauto.
      * apply firstDiff_None in Hd. apply (f_equal length) in Hd.
        rewrite length_app in Hd. destruct c; [done|simpl in Hd; lia].
Qed.

(** C5, where the code departs from it: with a visible suffix length of 0
    the masked value of "sk-1234567890" is not the bare marker.  The
    clamped length is 0, [slice(-0)] is [slice(0)], and the whole key
    follows the marker. *)
Theorem maskKey_zero_suffix_shows_key :
  maskKey (Some (js "sk-1234567890")) (Some 0%Z) =
    prefix_marker ++ js "sk-1234567890" ∧
  maskKey (Some (js "sk-1234567890")) (Some 0%Z) ≠
    prefix_marker ++ drop (length (js "sk-1234567890") - 0) (js "sk-1234567890").
Proof.
  rewrite maskKey_hidden by done. split; [done|].
  intros Heq%app_inv_head. discriminate Heq.
Qed.

(** C6: [matches] is true exactly when the new key and its confirmation
    are both non-empty and equal; two empty inputs do not match. *)
Theorem matches_spec (st : State) :
  (matches st = true ↔
     newKey st ≠ [] ∧ confirmKey st ≠ [] ∧ newKey st = confirmKey st) ∧
  matches (setConfirmKey [] (setNewKey [] st)) = false.
Proof. split; [apply matches_true|]. by unfold matches. Qed.

(** C7: when the stored key is missing or empty, or the new key is empty,
    the distance is [Infinity], no small edit is detected and [diff] is
    [null]; when both are non-empty, a small edit is detected exactly when
    their edit distance is at most 2. *)
Theorem small_edit_guard (st : State) :
  (truthy (apiKey st) = false ∨ newKey st = [] →
     distanceFromCurrent st = Some Infinity ∧
     suspiciousSmallEdit st = Some false ∧
     diff st = None) ∧
  (∀ key, apiKey st = Some key → key ≠ [] → newKey st ≠ [] →
     ∃ d, levenshtein key (newKey st) = Some d ∧
          min_edits key (newKey st) d ∧
          distanceFromCurrent st = Some (Finite d) ∧
          suspiciousSmallEdit st = Some (bool_decide (d ≤ 2)) ∧
          diff st = firstDiff key (newKey st)).
Proof.
  split.
  - intros Habsent. unfold suspiciousSmallEdit.
    rewrite (distanceFromCurrent_absent _ Habsent).
    repeat split. unfold diff.
    destruct Habsent as [Hkey|Hnew].
    + by destruct (apiKey st) as [[|c key]|].
    + rewrite Hnew. by destruct (apiKey st) as [[|c key]|].
  - intros key Hkey Hne Hnew. exists (lev key (newKey st)).
    split; [apply levenshtein_total|]. split; [apply lev_min_edits|].
    unfold suspiciousSmallEdit.
    rewrite (distanceFromCurrent_present _ _ Hkey Hne Hnew).
    split; [done|]. split.
    + simpl. f_equal. unfold SMALL_CHANGE_THRESHOLD.
      case_bool_decide as Hle.
      * by apply Nat.leb_le.
      * by apply Nat.leb_nle.
    + unfold diff. rewrite Hkey. destruct key as [|c key]; [done|].
      apply truthy_Some in Hnew. by rewrite Hnew.
Qed.

Lemma small_edit_guard_witness :
  (distanceFromCurrent no_key_stored = Some Infinity ∧
   suspiciousSmallEdit no_key_stored = Some false ∧
   diff no_key_stored = None) ∧
  ∃ d, levenshtein (js "sk-AAAA1111") (js "sk-AAAA1112") = Some d ∧
       min_edits (js "sk-AAAA1111") (js "sk-AAAA1112") d ∧
       distanceFromCurrent (scenario false) = Some (Finite d) ∧
       suspiciousSmallEdit (scenario false) = Some (bool_decide (d ≤ 2)) ∧
       diff (scenario false) =
         firstDiff (js "sk-AAAA1111") (js "sk-AAAA1112").
Proof.
  split.
  - apply (proj1 (small_edit_guard no_key_stored)). left. reflexivity.
  - apply (proj2 (small_edit_guard (scenario false)) (js "sk-AAAA1111")).
    + reflexivity.
    + discriminate.
    + discriminate.
Defined.

(** C8: the store's setter is called by [handleSave] alone, and only
    when [canSave] is true.  With [canSave] false [handleSave] changes
    nothing; with [canSave] true it calls the setter once, with the new
    key, and closes the dialog.  Every event either leaves the stored key
    and the list of calls as they were, or is a save in a state whose
    [matches] and [ackReplace] are true. *)
Theorem handleSave_guarded (st : State) :
  (canSave_of st = Some false → handleSave st = Some st) ∧
  (canSave_of st = Some true →
     ∃ st', handleSave st = Some st' ∧
            setApiKey_calls st' = setApiKey_calls st ++ [newKey st] ∧
            apiKey st' = Some (newKey st) ∧
            open st' = false) ∧
  (∀ e, ∃ st',
     step st e = Some st' ∧
     ((setApiKey_calls st' = setApiKey_calls st ∧ apiKey st' = apiKey st) ∨
      (e = SaveClick ∧ canSave_of st = Some true ∧
       matches st = true ∧ ackReplace st = true ∧
       setApiKey_calls st' = setApiKey_calls st ++ [newKey st]))).
Proof.
  split; [apply handleSave_blocked|]. split.
  - intros Hok. rewrite (handleSave_saves _ Hok). by eexists.
  - intros e. destruct (step_setApiKey st e) as (st' & Hstep & Hcases).
    exists st'. split; [done|]. destruct Hcases as [?|Hsave]; [by left|].
    right. tauto.
Qed.

Lemma handleSave_guarded_witness :
  handleSave (scenario false) = Some (scenario false) ∧
  ∃ st', handleSave (scenario true) = Some st' ∧
         setApiKey_calls st' = [js "sk-AAAA1112"] ∧
         apiKey st' = Some (js "sk-AAAA1112") ∧
         open st' = false.
Proof.
  split.
  - apply (proj1 (handleSave_guarded (scenario false))). reflexivity.
  - apply (proj1 (proj2 (handleSave_guarded (scenario true)))). reflexivity.
Defined.

(** C10: for a non-empty key and a suffix argument of 0 or less, the
    clamped length is 0, [key.slice(-0)] is the whole key, and [maskKey]
    returns the marker followed by the whole key. *)
Theorem maskKey_nonpositive_suffix (key : jsstring) (suffix : Z) :
  key ≠ [] → (suffix ≤ 0)%Z →
  Z.max 0 (Z.min suffix (Z.of_nat (length key))) = 0%Z ∧
  slice key (- 0) None = key ∧
  maskKey (Some key) (Some suffix) = prefix_marker ++ key.
Proof.
  intros Hkey Hsuffix. split; [lia|]. split; [apply slice_zero|].
  by apply maskKey_hidden.
Qed.

Lemma maskKey_nonpositive_suffix_witness :
  Z.max 0 (Z.min (-1) (Z.of_nat (length (js "ab")))) = 0%Z ∧
  slice (js "ab") (- 0) None = js "ab" ∧
  maskKey (Some (js "ab")) (Some (-1)%Z) = prefix_marker ++ js "ab".
Proof.
  apply (maskKey_nonpositive_suffix (js "ab") (-1)); [discriminate|lia].
Defined.

(** * Further properties of the code *)

(** For a non-empty key and a suffix argument of at least 1, [maskKey]
    returns the marker followed by the last [min(suffix, key.length)] code
    units of the key, and by nothing else of it. *)
Theorem maskKey_suffix_window (key : jsstring) (suffix : Z) :
  key ≠ [] → (1 ≤ suffix)%Z →
  ∃ hidden visible,
    key = hidden ++ visible ∧
    length visible = Z.to_nat suffix `min` length key ∧
    maskKey (Some key) (Some suffix) = prefix_marker ++ visible.
Proof.
  intros Hkey Hsuffix.
  exists (take (length key - Z.to_nat suffix) key),
         (drop (length key - Z.to_nat suffix) key).
  split; [by rewrite take_drop|]. split.
  - rewrite length_drop. lia.
  - apply maskKey_visible; [done|lia].
Qed.

Lemma maskKey_suffix_window_witness :
  ∃ hidden visible,
    js "sk-1234567890" = hidden ++ visible ∧
    length visible = Z.to_nat 4 `min` length (js "sk-1234567890") ∧
    maskKey (Some (js "sk-1234567890")) (Some 4%Z) = prefix_marker ++ visible.
Proof.
  apply (maskKey_suffix_window (js "sk-1234567890") 4); [discriminate|lia].
Defined.

(** [maskKey] returns the dash for a missing or empty key, whatever the
    suffix argument; a call without suffix argument shows four code units;
    the two examples of the specification. *)
Theorem maskKey_examples (key : option jsstring) (suffix : option Z) :
  maskKey None suffix = placeholder ∧
  maskKey (Some []) suffix = placeholder ∧
  maskKey key None = maskKey key (Some 4%Z) ∧
  maskKey (Some (js "sk-1234567890")) (Some 4%Z) = prefix_marker ++ js "7890" ∧
  maskKey (Some (js "ab")) (Some 4%Z) = prefix_marker ++ js "ab".
Proof. repeat split. Qed.

(** Whatever the user does from the first render on, every value the
    store's setter was called with is a non-empty string, and once it has
    been called the stored key is the value of its last call. *)
Theorem saved_keys_nonempty (stored : option jsstring) (es : list event)
    (st : State) :
  run (initial stored) es = Some st →
  Forall (λ v, v ≠ []) (setApiKey_calls st) ∧
  (setApiKey_calls st ≠ [] → apiKey st = last (setApiKey_calls st)).
Proof.
  apply (run_inv (λ st,
    Forall (λ v, v ≠ []) (setApiKey_calls st) ∧
    (setApiKey_calls st ≠ [] → apiKey st = last (setApiKey_calls st)))).
  - clear. intros st e st' [Hall Hlast] Hstep.
    destruct (step_setApiKey st e) as (st1 & Hst1 & Hcases).
    rewrite Hstep in Hst1. injection Hst1 as <-.
    destruct Hcases as [[-> ->]|(_ & _ & Hm & _ & -> & ->)]; [done|].
    apply matches_true in Hm as (Hnew & _). split.
    + apply Forall_app. split; [done|]. by apply Forall_singleton.
    + intros _. by rewrite last_snoc.
  - split; [apply Forall_nil_2|done].
Qed.

Lemma saved_keys_nonempty_witness :
  Forall (λ v : jsstring, v ≠ []) [js "k2"] ∧
  ([js "k2"] ≠ [] → Some (js "k2") = last [js "k2"]).
Proof.
  apply (saved_keys_nonempty (Some (js "k1"))
    [OpenChange true; NewKeyInput (js "k2"); ConfirmKeyInput (js "k2");
     AckSwitch true; ForceSwitch true; SaveClick]
    (mkState (Some (js "k2")) [js "k2"] false (js "k2") (js "k2") true true)).
  reflexivity.
Defined.

(** The distance [levenshtein] returns satisfies the triangle inequality,
    is at most the longer length and at least the difference of the
    lengths. *)
Theorem levenshtein_metric (a b c : jsstring) :
  ∃ dab dbc dac,
    levenshtein a b = Some dab ∧
    levenshtein b c = Some dbc ∧
    levenshtein a c = Some dac ∧
    dac ≤ dab + dbc ∧
    dab ≤ length a `max` length b ∧
    length a - length b ≤ dab ∧
    length b - length a ≤ dab.
Proof.
  exists (lev a b), (lev b c), (lev a c).
  rewrite !levenshtein_total. repeat split.
  - apply lev_triangle.
  - apply lev_le_max.
  - pose proof (edits_length _ _ _ (lev_edits a b)). lia.
  - pose proof (edits_length _ _ _ (lev_edits a b)). lia.
Qed.

(** The scenario of the specification: one edit away from the stored
    key, typed twice and acknowledged, the new key cannot be saved until
    the override switch is on. *)
Theorem scenario_needs_override :
  distanceFromCurrent (scenario false) = Some (Finite 1) ∧
  canSave_of (scenario false) = Some false ∧
  canSave_of (scenario true) = Some true ∧
  (apiKey <$> handleSave (scenario false)) = Some (Some (js "sk-AAAA1111")) ∧
  (apiKey <$> handleSave (scenario true)) = Some (Some (js "sk-AAAA1112")).
Proof. repeat split; by vm_compute. Qed.

(** ** Common prefixes and suffixes, and the first difference *)

Lemma lev_cons_same {A} `{EqDecision A} (x : A) (s t : list A) :
  lev (x :: s) (x :: t) = lev s t.
Proof.
  rewrite lev_cons_cons, decide_True by done.
  pose proof (lev_insert_l x s t) as Hl.
  pose proof (lev_insert_l x t s) as Hr.
  rewrite (lev_sym t s), (lev_sym (x :: t) s) in Hr.
  unfold min3. lia.
Qed.

Lemma lev_app_l {A} `{EqDecision A} (p s t : list A) :
  lev (p ++ s) (p ++ t) = lev s t.
Proof.
  induction p as [|x p IH]; [done|].
  by rewrite <-!app_comm_cons, lev_cons_same.
Qed.

Lemma lev_app_r {A} `{EqDecision A} (q s t : list A) :
  lev (s ++ q) (t ++ q) = lev s t.
Proof.
  rewrite <-(lev_reverse (s ++ q)), !reverse_app, lev_app_l.
  apply lev_reverse.
Qed.

(** The strings agree before the index [firstDiff] reports. *)
Lemma firstDiff_common_prefix a b d :
  firstDiff a b = Some d → take (diff_index d) a = take (diff_index d) b.
Proof.
  intros Hd. apply firstDiff_loop_Some in Hd as (_ & _ & Heq & _).
  apply list_eq. intros k. rewrite !lookup_take.
  case_decide; [|done]. apply Heq. lia.
Qed.

Lemma strict_ne_sym x y : strict_ne x y = strict_ne y x.
Proof. unfold strict_ne. apply bool_decide_ext. split; intros ? ?; done. Qed.

Lemma firstDiff_loop_swap a b max i todo :
  firstDiff_loop b a max i todo =
  (λ d, mkDiff (diff_index d) (diff_right d) (diff_left d))
    <$> firstDiff_loop a b max i todo.
Proof.
  revert i. induction todo as [|todo IH]; intros i; simpl; [done|].
  rewrite (strict_ne_sym (char_at b i)).
  destruct (strict_ne (char_at a i) (char_at b i)); [done|apply IH].
Qed.

(** * Further properties: the two string utilities together *)

(** A prefix and a suffix that two strings share do not count: the
    distance between [p ++ a ++ q] and [p ++ b ++ q] is the distance
    between [a] and [b]. *)
Theorem levenshtein_common_affixes (p q a b : jsstring) :
  levenshtein (p ++ a ++ q) (p ++ b ++ q) = levenshtein a b.
Proof.
  rewrite !levenshtein_total. f_equal.
  by rewrite lev_app_l, lev_app_r.
Qed.

(** When [firstDiff] reports a difference at index [i], [levenshtein]
    returns at least 1 and at most the number of positions from [i] to
    the end of the longer string. *)
Theorem distance_after_divergence (a b : jsstring) (d : Diff) :
  firstDiff a b = Some d →
  ∃ n, levenshtein a b = Some n ∧
       1 ≤ n ≤ length a `max` length b - diff_index d.
Proof.
  intros Hd. exists (lev a b). split; [apply levenshtein_total|].
  split.
  - destruct (lev a b) eqn:H0; [|lia].
    apply lev_0_iff in H0. apply firstDiff_None in H0. congruence.
  - pose proof (firstDiff_common_prefix _ _ _ Hd) as Hpre.
    rewrite <-(take_drop (diff_index d) a) at 1.
    rewrite <-(take_drop (diff_index d) b) at 1.
    rewrite Hpre, lev_app_l.
    pose proof (lev_le_max (drop (diff_index d) a) (drop (diff_index d) b)).
    rewrite !length_drop in *. lia.
Qed.

Lemma distance_after_divergence_witness :
  ∃ n, levenshtein (js "sk-AAAA1111") (js "sk-AAAA1112") = Some n ∧
       1 ≤ n ≤ length (js "sk-AAAA1111") `max` length (js "sk-AAAA1112") - 10.
Proof.
  apply (distance_after_divergence (js "sk-AAAA1111") (js "sk-AAAA1112")
           (mkDiff 10 (js "1111") (js "1112"))).
  reflexivity.
Defined.

(** [firstDiff b a] is [firstDiff a b] with [left] and [right]
    exchanged: the index is the same. *)
Theorem firstDiff_swap (a b : jsstring) :
  firstDiff b a =
  (λ d, mkDiff (diff_index d) (diff_right d) (diff_left d)) <$> firstDiff a b.
Proof.
  unfold firstDiff. rewrite (Nat.max_comm (length b)).
  apply firstDiff_loop_swap.
Qed.

(** The two contexts [firstDiff] returns have at most 7 code units each;
    they start with the same [min(i, 3)] code units, the ones before the
    difference, and differ right after them, where [left] has [a[i]] and
    [right] has [b[i]] (nothing, for a string that ends at [i]). *)
Theorem firstDiff_contexts (a b : jsstring) (d : Diff) :
  firstDiff a b = Some d →
  let i := diff_index d in
  let k := i `min` 3 in
  length (diff_left d) ≤ 7 ∧
  length (diff_right d) ≤ 7 ∧
  take k (diff_left d) = take k (diff_right d) ∧
  take k (diff_left d) = take k (drop (i - 3) a) ∧
  diff_left d !! k = a !! i ∧
  diff_right d !! k = b !! i ∧
  diff_left d !! k ≠ diff_right d !! k.
Proof.
  intros Hd. pose proof (firstDiff_common_prefix _ _ _ Hd) as Hpre.
  apply firstDiff_loop_Some in Hd as (Hidx & Hne & Heq & Hl & Hr).
  cbv zeta. set (i := diff_index d) in *.
  set (hi := (length a `max` length b) `min` (i + 4)) in *.
  assert (Hk : i `min` 3 < hi - (i - 3)) by (subst hi; lia).
  assert (Hi : i - 3 + i `min` 3 = i) by lia.
  assert (Hla : diff_left d !! (i `min` 3) = a !! i).
  { rewrite Hl, lookup_take, decide_True by done.
    by rewrite lookup_drop, Hi. }
  assert (Hrb : diff_right d !! (i `min` 3) = b !! i).
  { rewrite Hr, lookup_take, decide_True by done.
    by rewrite lookup_drop, Hi. }
  assert (Hcommon : take (i `min` 3) (drop (i - 3) a) =
                    take (i `min` 3) (drop (i - 3) b)).
  { apply list_eq. intros j. rewrite !lookup_take.
    case_decide; [|done]. rewrite !lookup_drop. apply Heq. lia. }
  repeat split.
  - rewrite Hl, length_take. lia.
  - rewrite Hr, length_take. lia.
  - rewrite Hl, Hr, !take_take, Nat.min_l by lia. done.
  - rewrite Hl, !take_take, Nat.min_l by lia. done.
  - done.
  - done.
  - by rewrite Hla, Hrb.
Qed.

Lemma firstDiff_contexts_witness :
  let d := mkDiff 3 (js "abc") (js "abcd") in
  let i := diff_index d in
  let k := i `min` 3 in
  length (diff_left d) ≤ 7 ∧
  length (diff_right d) ≤ 7 ∧
  take k (diff_left d) = take k (diff_right d) ∧
  take k (diff_left d) = take k (drop (i - 3) (js "abc")) ∧
  diff_left d !! k = js "abc" !! i ∧
  diff_right d !! k = js "abcd" !! i ∧
  diff_left d !! k ≠ diff_right d !! k.
Proof.
  apply (firstDiff_contexts (js "abc") (js "abcd")). reflexivity.
Defined.

(** ** The two situations of a render *)

(** Either the guard is off (no stored key, or nothing typed yet), or
    both keys are there and the derived values come from [levenshtein] and
    [firstDiff]. *)
Lemma guard_cases st :
  (truthy (apiKey st) && truthy (Some (newKey st)) = false ∧
   distanceFromCurrent st = Some Infinity ∧
   suspiciousSmallEdit st = Some false ∧
   diff st = None) ∨
  (∃ key,
     apiKey st = Some key ∧ key ≠ [] ∧ newKey st ≠ [] ∧
     truthy (apiKey st) && truthy (Some (newKey st)) = true ∧
     distanceFromCurrent st = Some (Finite (lev key (newKey st))) ∧
     suspiciousSmallEdit st = Some (bool_decide (lev key (newKey st) ≤ 2)) ∧
     diff st = firstDiff key (newKey st)).
Proof.
  destruct (apiKey st) as [[|c key]|] eqn:Hkey.
  - left. unfold suspiciousSmallEdit, diff.
    rewrite distanceFromCurrent_absent by (left; by rewrite Hkey).
    by rewrite Hkey.
  - destruct (newKey st) as [|c' new] eqn:Hnew.
    + left. unfold suspiciousSmallEdit, diff.
      rewrite distanceFromCurrent_absent by (by right).
      by rewrite Hkey, Hnew.
    + right. exists (c :: key). unfold suspiciousSmallEdit, diff.
      rewrite (distanceFromCurrent_present st (c :: key))
        by (by rewrite ?Hnew).
      rewrite Hkey, Hnew. repeat split; try done.
      simpl. f_equal. unfold SMALL_CHANGE_THRESHOLD.
      case_bool_decide as Hle.
      * by apply Nat.leb_le.
      * by apply Nat.leb_nle.
  - left. unfold suspiciousSmallEdit, diff.
    rewrite distanceFromCurrent_absent by (left; by rewrite Hkey).
    by rewrite Hkey.
Qed.

Lemma render_total st :
  ∃ d small ok,
    distanceFromCurrent st = Some d ∧
    suspiciousSmallEdit st = Some small ∧
    canSave_of st = Some ok ∧
    ok = canSave (matches st) (ackReplace st) small (forceSmallChange st) ∧
    render st = Some {|
      view_key_field := maskKey (apiKey st) None;
      view_dialog_open := open st;
      view_new_key := newKey st;
      view_confirm_key := confirmKey st;
      view_mismatch_note := bothEntered st && negb (matches st);
      view_panel :=
        if truthy (apiKey st) && truthy (Some (newKey st)) && small then
          Some (mkPanel d (plural_ending d) (diff st) (forceSmallChange st))
        else None;
      view_ack_switch := ackReplace st;
      view_save_disabled := negb ok |}.
Proof.
  destruct (distanceFromCurrent_total st) as [d Hd].
  destruct (suspiciousSmallEdit_total st) as [small Hsmall].
  exists d, small, (canSave (matches st) (ackReplace st) small
                      (forceSmallChange st)).
  unfold render, canSave_of. rewrite Hd, Hsmall. done.
Qed.

(** * Further properties: the gate and the screen *)

(** The Save button is enabled exactly when a non-empty new key has been
    typed twice, the replacement is acknowledged, and either the override
    switch is on, or no key is stored, or the new key is more than two
    single-character edits away from the stored key. *)
Theorem save_enabled_iff (st : State) :
  canSave_of st = Some true ↔
  newKey st ≠ [] ∧ newKey st = confirmKey st ∧ ackReplace st = true ∧
  (forceSmallChange st = true ∨
   truthy (apiKey st) = false ∨
   ∀ key n, apiKey st = Some key → edits n key (newKey st) → 2 < n).
Proof.
  unfold canSave_of.
  destruct (guard_cases st)
    as [(Hoff & _ & -> & _)|(key & Hkey & Hne & Hnew & _ & _ & -> & _)];
    simpl; rewrite (inj_iff Some), canSave_true, matches_true.
  - split.
    + intros ((Hn & _ & Heq) & Ha & _). repeat split; try done.
      apply andb_false_iff in Hoff as [?|Hoff]; [by auto|].
      apply truthy_Some in Hn. congruence.
    + intros (Hn & Heq & Ha & _). repeat split; try done; [congruence|by left].
  - split.
    + intros ((Hn & _ & Heq) & Ha & Hsmall). repeat split; try done.
      destruct Hsmall as [Hsmall|?]; [|by left]. right; right.
      intros key' n Hkey' Hn'. rewrite Hkey in Hkey'. injection Hkey' as <-.
      apply bool_decide_eq_false in Hsmall.
      apply lev_lower_bound in Hn'. lia.
    + intros (Hn & Heq & Ha & Hgate). repeat split; try done; [congruence|].
      destruct Hgate as [?|[Hoff|Hfar]]; [by right| |].
      * rewrite Hkey in Hoff. apply truthy_Some in Hne. congruence.
      * left. apply bool_decide_eq_false. intros Hle.
        specialize (Hfar key _ Hkey (lev_edits key (newKey st))). lia.
Qed.

(** The small-change panel is on screen exactly when a small edit is
    detected (a detected small edit implies both keys are there).  It then
    prints 0, 1 or 2 edits, the minimum number of edits from the stored key
    to the new key; 0 when the new key is the stored key itself, and then
    and only then it shows no first difference; "edit" has no ending
    exactly for 1. *)
Theorem small_change_panel (st : State) :
  ∃ v, render st = Some v ∧
    match view_panel v with
    | None => suspiciousSmallEdit st = Some false
    | Some p =>
        ∃ key d,
          suspiciousSmallEdit st = Some true ∧
          apiKey st = Some key ∧ key ≠ [] ∧ newKey st ≠ [] ∧
          panel_edits p = Finite d ∧ d ≤ 2 ∧
          min_edits key (newKey st) d ∧
          (d = 0 ↔ newKey st = key) ∧
          (panel_diff p = None ↔ d = 0) ∧
          (panel_ending p = [] ↔ d = 1) ∧
          panel_switch p = forceSmallChange st
    end.
Proof.
  destruct (render_total st) as (d & small & ok & Hd & Hs & _ & _ & ->).
  eexists. split; [done|]. cbn [view_panel].
  destruct (guard_cases st)
    as [(-> & _ & Hs' & _)
       |(key & Hkey & Hne & Hnew & -> & Hd' & Hs' & Hdiff)].
  - by simpl.
  - rewrite Hs' in Hs. injection Hs as <-.
    rewrite Hd' in Hd. injection Hd as <-. cbn [andb].
    case_bool_decide as Hle; [|done].
    exists key, (lev key (newKey st)).
    cbn [panel_edits panel_ending panel_diff panel_switch].
    do 6 (split; [done|]). split; [apply lev_min_edits|].
    split; [rewrite lev_0_iff; split; congruence|].
    split; [by rewrite Hdiff, firstDiff_None, lev_0_iff|].
    split; [|done].
    destruct (lev key (newKey st)) as [|[|n]]; simpl; split; done.
Qed.

Lemma handleSave_noop_iff st ok :
  canSave_of st = Some ok → (handleSave st = Some st ↔ ok = false).
Proof.
  intros Hok. unfold handleSave. rewrite Hok. simpl.
  destruct ok; simpl; split; try done.
  intros [= Hst]. apply (f_equal setApiKey_calls) in Hst. simpl in Hst.
  apply (f_equal length) in Hst. rewrite length_app in Hst.
  simpl in Hst. lia.
Qed.

(** The Save button is disabled exactly when [handleSave] would change
    nothing.  The note that the keys do not match is on screen exactly
    when both inputs are non-empty and differ, and the Save button is
    disabled whenever the note is on screen. *)
Theorem save_button_and_handler (st : State) :
  ∃ v, render st = Some v ∧
    (view_save_disabled v = true ↔ handleSave st = Some st) ∧
    (view_mismatch_note v = true ↔
       newKey st ≠ [] ∧ confirmKey st ≠ [] ∧ newKey st ≠ confirmKey st) ∧
    (view_mismatch_note v = true → view_save_disabled v = true).
Proof.
  destruct (render_total st) as (d & small & ok & _ & _ & Hok & Hgate & ->).
  eexists. split; [done|]. simpl.
  rewrite (handleSave_noop_iff _ _ Hok). split; [by destruct ok|].
  split.
  - unfold matches, bothEntered.
    destruct (newKey st) as [|c k], (confirmKey st) as [|c' k']; simpl;
      rewrite ?negb_true_iff, ?bool_decide_eq_false;
      (split; [try done|by intros (? & ? & ?)]).
  - intros (_ & Hm%negb_true_iff)%andb_true_iff. subst ok. by rewrite Hm.
Qed.

Lemma save_button_and_handler_witness :
  ∃ v, render (scenario false) = Some v ∧
    (view_save_disabled v = true ↔
       handleSave (scenario false) = Some (scenario false)) ∧
    (view_mismatch_note v = true ↔
       newKey (scenario false) ≠ [] ∧ confirmKey (scenario false) ≠ [] ∧
       newKey (scenario false) ≠ confirmKey (scenario false)) ∧
    (view_mismatch_note v = true → view_save_disabled v = true).
Proof. apply (save_button_and_handler (scenario false)). Defined.

(** The read-only key field shows the dash when no key is stored, and
    otherwise the marker followed by the last four code units of the
    stored key: by the whole key, when it has at most four.  It never has
    more than 8 code units. *)
Theorem key_field_display (st : State) :
  ∃ v, render st = Some v ∧
    length (view_key_field v) ≤ 8 ∧
    match apiKey st with
    | Some ((_ :: _) as key) =>
        view_key_field v = prefix_marker ++ drop (length key - 4) key
    | _ => view_key_field v = placeholder
    end.
Proof.
  destruct (render_total st) as (d & small & ok & _ & _ & _ & _ & ->).
  eexists. split; [done|]. simpl.
  destruct (apiKey st) as [[|c key]|]; [simpl; split; [lia|done]| |
                                        simpl; split; [lia|done]].
  change (maskKey (Some (c :: key)) None)
    with (maskKey (Some (c :: key)) (Some 4%Z)).
  rewrite maskKey_visible by done. split; [|done].
  rewrite length_app, length_drop. simpl. lia.
Qed.

(** ** Runs of events *)

Lemma step_keeps_override st e :
  e ≠ OpenChange true → e ≠ ForceSwitch false →
  forceSmallChange st = true →
  ∃ st', step st e = Some st' ∧ forceSmallChange st' = true.
Proof.
  intros Hopen Hforce Hst. destruct e as [[]| | | |[]| |]; simpl;
    try done; try (by eexists).
  unfold handleSave. destruct (canSave_of_total st) as [[] ->]; by eexists.
Qed.

Lemma canSave_of_override st :
  forceSmallChange st = true →
  canSave_of st = Some (matches st && ackReplace st).
Proof.
  intros Hforce. unfold canSave_of.
  destruct (suspiciousSmallEdit_total st) as [small ->]. simpl.
  unfold canSave. by rewrite Hforce, orb_true_r, andb_true_r.
Qed.

Lemma run_offered_cons st e es st' :
  (∃ v, render st = Some v ∧ offers v e = true) →
  step st e = Some st' →
  run_offered st (e :: es) = run_offered st' es.
Proof.
  intros (v & Hv & He) Hstep. simpl. rewrite Hv. simpl.
  by rewrite He, Hstep.
Qed.

Lemma offers_open_change st :
  ∃ v, render st = Some v ∧ offers v (OpenChange (negb (open st))) = true.
Proof.
  destruct (render_total st) as (d & small & ok & _ & _ & _ & _ & ->).
  eexists. split; [done|]. simpl. by destruct (open st).
Qed.

(** While the dialog is open, the screen offers typing a new value into
    either input and switching the acknowledgement. *)
Lemma offers_new_key st k :
  open st = true → k ≠ newKey st →
  ∃ v, render st = Some v ∧ offers v (NewKeyInput k) = true.
Proof.
  intros Hopen Hk.
  destruct (render_total st) as (d & small & ok & _ & _ & _ & _ & ->).
  eexists. split; [done|]. simpl.
  by rewrite Hopen, bool_decide_eq_true_2.
Qed.

Lemma offers_confirm_key st k :
  open st = true → k ≠ confirmKey st →
  ∃ v, render st = Some v ∧ offers v (ConfirmKeyInput k) = true.
Proof.
  intros Hopen Hk.
  destruct (render_total st) as (d & small & ok & _ & _ & _ & _ & ->).
  eexists. split; [done|]. simpl.
  by rewrite Hopen, bool_decide_eq_true_2.
Qed.

Lemma offers_ack st :
  open st = true →
  ∃ v, render st = Some v ∧
       offers v (AckSwitch (negb (ackReplace st))) = true.
Proof.
  intros Hopen.
  destruct (render_total st) as (d & small & ok & _ & _ & _ & _ & ->).
  eexists. split; [done|]. simpl. rewrite Hopen.
  by destruct (ackReplace st).
Qed.

Lemma offers_save st :
  open st = true → canSave_of st = Some true →
  ∃ v, render st = Some v ∧ offers v SaveClick = true.
Proof.
  intros Hopen Hok.
  destruct (render_total st) as (d & small & ok & _ & _ & Hok' & _ & ->).
  rewrite Hok in Hok'. injection Hok' as <-.
  eexists. split; [done|]. simpl. by rewrite Hopen.
Qed.

Lemma offers_override st :
  open st = true → suspiciousSmallEdit st = Some true →
  ∃ v, render st = Some v ∧
       offers v (ForceSwitch (negb (forceSmallChange st))) = true.
Proof.
  intros Hopen Hsmall.
  destruct (render_total st) as (d & small & ok & _ & Hs & _ & _ & ->).
  rewrite Hsmall in Hs. injection Hs as <-.
  eexists. split; [done|]. cbn [offers view_dialog_open view_panel].
  rewrite Hopen.
  destruct (guard_cases st) as [(_ & _ & Hs & _)|(key & _ & _ & _ & -> & _)].
  - congruence.
  - simpl. by destruct (forceSmallChange st).
Qed.

(** From a closed dialog: open, type the key twice, acknowledge, switch
    the override on if the panel shows up, save. *)
Lemma replace_from_closed st k :
  open st = false → k ≠ [] →
  ∃ es st',
    length es ≤ 6 ∧
    run_offered st es = Some st' ∧
    apiKey st' = Some k ∧
    setApiKey_calls st' = setApiKey_calls st ++ [k] ∧
    open st' = false.
Proof.
  intros Hclosed Hk.
  set (st1 := onOpenChange true st).
  set (st2 := setNewKey k st1).
  set (st3 := setConfirmKey k st2).
  set (st4 := setAckReplace true st3).
  set (st5 := setForceSmallChange true st4).
  assert (Hm4 : matches st4 = true).
  { apply matches_true. by repeat split. }
  assert (Hm5 : matches st5 = true).
  { apply matches_true. by repeat split. }
  assert (Hprefix : ∀ es,
    run_offered st
      (OpenChange true :: NewKeyInput k :: ConfirmKeyInput k ::
       AckSwitch true :: es) = run_offered st4 es).
  { intros es.
    pose proof (offers_open_change st) as Ho. rewrite Hclosed in Ho.
    rewrite (run_offered_cons st _ _ st1 Ho eq_refl).
    rewrite (run_offered_cons st1 _ _ st2);
      [|by apply offers_new_key|done].
    rewrite (run_offered_cons st2 _ _ st3);
      [|by apply offers_confirm_key|done].
    by rewrite (run_offered_cons st3 _ _ st4 (offers_ack st3 eq_refl) eq_refl). }
  destruct (suspiciousSmallEdit_total st4) as [[] Hsmall].
  - assert (Hok : canSave_of st5 = Some true).
    { rewrite canSave_of_override by done. by rewrite Hm5. }
    exists [OpenChange true; NewKeyInput k; ConfirmKeyInput k;
            AckSwitch true; ForceSwitch true; SaveClick].
    eexists. split; [simpl; lia|]. rewrite Hprefix.
    rewrite (run_offered_cons st4 _ _ st5
               (offers_override st4 eq_refl Hsmall) eq_refl).
    rewrite (run_offered_cons st5 _ _ _ (offers_save st5 eq_refl Hok)
               (handleSave_saves st5 Hok)).
    done.
  - assert (Hok : canSave_of st4 = Some true).
    { unfold canSave_of. rewrite Hsmall. simpl. by rewrite Hm4. }
    exists [OpenChange true; NewKeyInput k; ConfirmKeyInput k;
            AckSwitch true; SaveClick].
    eexists. split; [simpl; lia|]. rewrite Hprefix.
    rewrite (run_offered_cons st4 _ _ _ (offers_save st4 eq_refl Hok)
               (handleSave_saves st4 Hok)).
    done.
Qed.

(** * Further properties: what the user can and cannot do *)

(** Once the override switch is on, it stays on through every event
    other than reopening the dialog and switching it off, also when the
    new key is typed again; and while it is on, Save depends on the two
    inputs matching and on the acknowledgement alone, whatever the
    distance of the new key to the stored one. *)
Theorem override_is_sticky (st : State) (es : list event) :
  forceSmallChange st = true →
  Forall (λ e, e ≠ OpenChange true ∧ e ≠ ForceSwitch false) es →
  ∃ st', run st es = Some st' ∧
         forceSmallChange st' = true ∧
         canSave_of st' = Some (matches st' && ackReplace st').
Proof.
  intros Hforce Hes. revert st Hforce.
  induction Hes as [|e es [Hopen Hoff] _ IH]; intros st Hforce.
  - exists st. split; [done|]. split; [done|]. by apply canSave_of_override.
  - destruct (step_keeps_override st e Hopen Hoff Hforce) as (st1 & Hst1 & H1).
    destruct (IH st1 H1) as (st' & Hrun & Hst').
    exists st'. split; [|done]. simpl. by rewrite Hst1.
Qed.

Lemma override_is_sticky_witness :
  ∃ st', run (scenario true)
           [NewKeyInput (js "sk-AAAA1113"); ConfirmKeyInput (js "sk-AAAA1113")]
         = Some st' ∧
         forceSmallChange st' = true ∧
         canSave_of st' = Some (matches st' && ackReplace st').
Proof.
  apply (override_is_sticky (scenario true)); [reflexivity|].
  repeat constructor; discriminate.
Defined.

(** Whatever the state, the user can replace the stored key by any
    non-empty key with at most seven events, each offered by the screen
    when it is raised: close the dialog if it is open, open it, type the
    key twice, acknowledge, switch the override on if the small-change
    panel shows up, and save.  The setter is called once, with that key. *)
Theorem replace_always_possible (st : State) (k : jsstring) :
  k ≠ [] →
  ∃ es st',
    length es ≤ 7 ∧
    run_offered st es = Some st' ∧
    apiKey st' = Some k ∧
    setApiKey_calls st' = setApiKey_calls st ++ [k] ∧
    open st' = false.
Proof.
  intros Hk. destruct (open st) eqn:Hopen.
  - destruct (replace_from_closed (onOpenChange false st) k eq_refl Hk)
      as (es & st' & Hlen & Hrun & Hkey & Hcalls & Hclosed).
    exists (OpenChange false :: es), st'. split; [simpl; lia|].
    pose proof (offers_open_change st) as Ho. rewrite Hopen in Ho.
    by rewrite (run_offered_cons st _ _ _ Ho eq_refl).
  - destruct (replace_from_closed st k Hopen Hk)
      as (es & st' & Hlen & Hrest).
    exists es, st'. split; [lia|done].
Qed.

Lemma replace_always_possible_witness :
  ∃ es st',
    length es ≤ 7 ∧
    run_offered (scenario false) es = Some st' ∧
    apiKey st' = Some (js "sk-AAAA1113") ∧
    setApiKey_calls st' =
      setApiKey_calls (scenario false) ++ [js "sk-AAAA1113"] ∧
    open st' = false.
Proof.
  apply (replace_always_possible (scenario false) (js "sk-AAAA1113")).
  discriminate.
Defined.

(** A single mistyped, added or dropped code unit, anywhere in a key,
    is at distance exactly 1, and for a mistyped one [firstDiff] points at
    its position. *)
Theorem single_typo_distance (p q : jsstring) (x y : code_unit) :
  x ≠ y →
  levenshtein (p ++ x :: q) (p ++ y :: q) = Some 1 ∧
  levenshtein (p ++ q) (p ++ x :: q) = Some 1 ∧
  levenshtein (p ++ x :: q) (p ++ q) = Some 1 ∧
  diff_index <$> firstDiff (p ++ x :: q) (p ++ y :: q) = Some (length p).
Proof.
  intros Hxy. rewrite !levenshtein_total, !lev_app_l.
  pose proof (lev_app_r q [x] [y]) as Hsub.
  pose proof (lev_app_r q [] [x]) as Hins.
  pose proof (lev_app_r q [x] []) as Hdel.
  simpl app in Hsub, Hins, Hdel. rewrite Hsub, Hins, Hdel.
  rewrite lev_cons_cons, decide_False by done. repeat split.
  destruct (firstDiff (p ++ x :: q) (p ++ y :: q)) as [d|] eqn:Hd.
  - simpl. f_equal.
    apply firstDiff_loop_Some in Hd as (_ & Hne & Heq & _).
    destruct (decide (diff_index d < length p)) as [Hlt|Hge].
    { destruct Hne. by rewrite !lookup_app_l. }
    destruct (decide (length p < diff_index d)) as [Hgt|]; [|lia].
    specialize (Heq (length p)).
    rewrite !list_lookup_middle in Heq by done.
    assert (Some x = Some y) as [= ?] by (apply Heq; lia). done.
  - apply firstDiff_None, app_inv_head in Hd. by injection Hd.
Qed.

Lemma single_typo_distance_witness :
  levenshtein (js "sk-AAAA111" ++ 49%N :: []) (js "sk-AAAA111" ++ 50%N :: [])
    = Some 1 ∧
  levenshtein (js "sk-AAAA111" ++ []) (js "sk-AAAA111" ++ 49%N :: [])
    = Some 1 ∧
  levenshtein (js "sk-AAAA111" ++ 49%N :: []) (js "sk-AAAA111" ++ [])
    = Some 1 ∧
  diff_index <$>
    firstDiff (js "sk-AAAA111" ++ 49%N :: []) (js "sk-AAAA111" ++ 50%N :: [])
    = Some (length (js "sk-AAAA111")).
Proof.
  apply (single_typo_distance (js "sk-AAAA111") [] 49%N 50%N). discriminate.
Defined.

(** One offered event adds at most one call of the setter, and only by
    closing an open dialog; a dialog opens only by an opening event. *)
Lemma offered_step_calls st v e st' :
  render st = Some v → offers v e = true → step st e = Some st' →
  length (setApiKey_calls st') + Nat.b2n (open st') ≤
  length (setApiKey_calls st) + Nat.b2n (open st) + openings [e].
Proof.
  intros Hv He Hstep.
  destruct (render_total st) as (d & small & ok & _ & _ & Hok & _ & Hv').
  rewrite Hv in Hv'. injection Hv' as ->.
  destruct e as [next| | | | | |]; simpl in He, Hstep;
    try (injection Hstep as <-; simpl; lia).
  - injection Hstep as <-.
    destruct next, (open st); simpl in *; try done; lia.
  - apply andb_true_iff in He as [Hopen Hen].
    apply negb_true_iff, negb_false_iff in Hen. subst ok.
    rewrite (handleSave_saves _ Hok) in Hstep. injection Hstep as <-.
    simpl. rewrite length_app, Hopen. simpl. lia.
Qed.

Lemma openings_cons e es : openings (e :: es) = openings [e] + openings es.
Proof. destruct e as [[]| | | | | |]; simpl; lia. Qed.

Lemma offered_run_calls es : ∀ st st',
  run_offered st es = Some st' →
  length (setApiKey_calls st') + Nat.b2n (open st') ≤
  length (setApiKey_calls st) + Nat.b2n (open st) + openings es.
Proof.
  induction es as [|e es IH]; intros st st'; cbn [run_offered].
  - intros [= <-]. simpl. lia.
  - destruct (render st) as [v|] eqn:Hv; cbn [mbind option_bind]; [|done].
    destruct (offers v e) eqn:He; [|done].
    destruct (step st e) as [st1|] eqn:Hstep; cbn [mbind option_bind];
      [|done].
    intros Hrun%IH.
    pose proof (offered_step_calls _ _ _ _ Hv He Hstep).
    rewrite openings_cons. lia.
Qed.

(** Through the controls the screen offers, the setter is called at
    most once for every time the dialog is opened: starting with the
    dialog closed, the number of calls grows by no more than the number of
    openings. *)
Theorem one_save_per_opening (st st' : State) (es : list event) :
  open st = false →
  run_offered st es = Some st' →
  length (setApiKey_calls st') ≤ length (setApiKey_calls st) + openings es.
Proof.
  intros Hclosed Hrun%offered_run_calls. rewrite Hclosed in Hrun.
  simpl in Hrun. lia.
Qed.

Lemma one_save_per_opening_witness :
  length [js "k2"] ≤
  length (setApiKey_calls (initial (Some (js "k1")))) +
  openings [OpenChange true; NewKeyInput (js "k2"); ConfirmKeyInput (js "k2");
            AckSwitch true; ForceSwitch true; SaveClick].
Proof.
  apply (one_save_per_opening (initial (Some (js "k1")))
    (mkState (Some (js "k2")) [js "k2"] false (js "k2") (js "k2") true true));
    reflexivity.
Defined.
